(** * FSJP: the instance model, the SPT greedy heuristic and the schedule validator

    A shallow embedding of
      - [src/main.py]                               (FSJPInstance, line 33),
      - [src/algorithms/shortest_processing_time.py] (the heuristic),
      - [src/algorithms/__init__.py]                 (run_algorithm),
      - [src/utils.py]                               (validate_solution),
    followed by the properties of the specification that concern them.

    Conventions of the embedding.
      - Python integers and times are [Z]; counts ([num_jobs], [num_machines])
        and list positions produced by [range] are [nat].
      - A Python call either returns, raises, or has not finished within the
        loop budget it was given: the type [outcome].
      - A list read [l[i]] with an integer index follows Python: negative
        indices count from the end, anything else out of range raises
        [IndexError].
      - A schedule entry is a dict whose five keys may each be absent. *)

From stdpp Require Import base option list gmap strings pretty sorting.
From Stdlib Require Import ZArith QArith Qround Lia.

Open Scope Z_scope.

(** ** Outcomes of a Python call *)

(** The classes of [Exception] the program meets. [ImportError] stands for
    the class and its subclasses, which is what [except ImportError] catches;
    [OtherException] is any class that is not listed. *)
Inductive exn_kind :=
  | IndexError | KeyError | ValueError | TypeError | OverflowError
  | ZeroDivisionError | FileNotFoundError | JSONDecodeError | ImportError
  | OtherException (class_name : string).

(** An exception carries what [str(e)] prints. *)
Record exn := Exn { exn_class : exn_kind; str : string }.

Inductive outcome (A : Type) : Type :=
  | Returns (a : A)
  | Raises (e : exn)
  | OutOfFuel.
Arguments Returns {A} a.
Arguments Raises {A} e.
Arguments OutOfFuel {A}.

#[global] Instance outcome_ret : MRet outcome := @Returns.
#[global] Instance outcome_bind : MBind outcome := λ A B f m,
  match m with
  | Returns a => f a
  | Raises e => Raises e
  | OutOfFuel => OutOfFuel
  end.

Definition index_error : exn := Exn IndexError "list index out of range".
Definition key_error_int (k : Z) : exn := Exn KeyError (pretty k).
Definition key_error_str (k : string) : exn := Exn KeyError ("'" +:+ k +:+ "'").

(** ** Python lists and dicts *)

(** The position a Python index denotes in a list of length [n]. *)
Definition py_pos (n : nat) (i : Z) : option nat :=
  if bool_decide (0 ≤ i < Z.of_nat n) then Some (Z.to_nat i)
  else if bool_decide (- Z.of_nat n ≤ i < 0) then Some (Z.to_nat (Z.of_nat n + i))
  else None.

(** [l[i]] *)
Definition py_index {A} (l : list A) (i : Z) : outcome A :=
  match py_pos (length l) i with
  | Some p => match l !! p with Some x => Returns x | None => Raises index_error end
  | None => Raises index_error
  end.

(** [l[i] = x] *)
Definition py_store {A} (l : list A) (i : Z) (x : A) : outcome (list A) :=
  match py_pos (length l) i with
  | Some p => Returns (<[p := x]> l)
  | None => Raises index_error
  end.

(** [l[i]] for [i] taken from a [range]. *)
Definition py_nth {A} (l : list A) (i : nat) : outcome A :=
  match l !! i with Some x => Returns x | None => Raises index_error end.

(** [d[k]] on a dict with integer keys. *)
Definition dict_get (d : gmap Z Z) (k : Z) : outcome Z :=
  match d !! k with Some v => Returns v | None => Raises (key_error_int k) end.

(** [max(l)] *)
Definition py_max (l : list Z) : outcome Z :=
  match l with
  | [] => Raises (Exn ValueError "max() arg is an empty sequence")
  | x :: r => Returns (foldl Z.max x r)
  end.

(** ** Instance model ([src/main.py]) *)

Record Operation := {
  operation_id : Z;
  eligible_machines : list Z;
  processing_times : gmap Z Z
}.

Record Job := {
  job_id : Z;
  operations : list Operation
}.

Record FSJPInstance := {
  seed : Z;
  num_jobs : nat;
  num_machines : nat;
  jobs : list Job
}.

(** What [num_jobs ** exponent] evaluates to, and what the configuration
    can hold as exponent: a real number (an int, or a finite float, which is
    a rational), an infinity, a NaN, or a complex number (the power of a
    negative base). *)
Inductive number := Real (q : Q) | Infinite (positive : bool) | NotANumber | Complex.

(** Truncation toward zero, and rounding to the nearest integer with ties
    to the even one. *)
Definition truncate (x : Q) : Z := Z.quot (Qnum x) (Z.pos (Qden x)).

Definition round_half_even (x : Q) : Z :=
  let f := Z.div (Qnum x) (Z.pos (Qden x)) in
  let r := Z.modulo (Qnum x) (Z.pos (Qden x)) in
  match 2 * r ?= Z.pos (Qden x) with
  | Lt => f
  | Gt => f + 1
  | Eq => if Z.even f then f else f + 1
  end.

(** [int(x)] *)
Definition py_int (x : number) : outcome Z :=
  match x with
  | Real q => Returns (truncate q)
  | Infinite _ => Raises (Exn OverflowError "cannot convert float infinity to integer")
  | NotANumber => Raises (Exn ValueError "cannot convert float NaN to integer")
  | Complex =>
      Raises (Exn TypeError "int() argument must be a string, a bytes-like object or a real number, not 'complex'")
  end.

(** [round(x)] *)
Definition py_round (x : number) : outcome Z :=
  match x with
  | Real q => Returns (round_half_even q)
  | Infinite _ => Raises (Exn OverflowError "cannot convert float infinity to integer")
  | NotANumber => Raises (Exn ValueError "cannot convert float NaN to integer")
  | Complex => Raises (Exn TypeError "type complex doesn't define __round__ method")
  end.

(** Line 33 of [FSJPInstance.__init__]:
    [max(1, int(self.num_jobs ** CONFIG[...]['machine_scaling_exponent']))].
    The power is a primitive of the language, taken here as the function
    [power]: it returns a number or raises ([OverflowError] on a result out
    of range, [ZeroDivisionError] on 0 to a negative power). *)
Definition init_num_machines (power : Z → number → outcome number) (num_jobs : Z)
    (exponent : number) : outcome Z :=
  p ← power num_jobs exponent;
  n ← py_int p;
  Returns (Z.max 1 n).

(** ** Schedules *)

(** A schedule entry: a dict with the keys ['job_id'], ['operation_id'],
    ['machine'], ['start_time'], ['completion_time'], each possibly absent;
    a key that is present holds an integer (the times of the embedding are
    integers). *)
Record Entry := {
  e_job_id : option Z;
  e_operation_id : option Z;
  e_machine : option Z;
  e_start_time : option Z;
  e_completion_time : option Z
}.

(** [op[key]] *)
Definition field (key : string) (v : option Z) : outcome Z :=
  match v with Some x => Returns x | None => Raises (key_error_str key) end.

(** A makespan is a float: a finite time or [float('inf')]. *)
Inductive time_ext := Finite (t : Z) | Inf.

(** The dict an algorithm returns and [run_algorithm] completes. *)
Record Solution := {
  makespan : time_ext;
  schedule : option (list Entry);
  algorithm_type : option string;
  error : option string;
  execution_time : option Q
}.

(** ** The SPT heuristic ([src/algorithms/shortest_processing_time.py]) *)

Module SPT.

(** The loop state: [machine_available], [job_operation_idx],
    [job_completion], [schedule]. *)
Record state := {
  machine_available : list Z;
  job_operation_idx : list nat;
  job_completion : list Z;
  sched : list Entry
}.

(** The running best candidate; [None] stands for the initial
    [best_processing_time = inf], [best_job = -1]. *)
Record best := {
  best_processing_time : Z;
  best_start_time : Z;
  best_job : nat;
  best_machine : Z;
  best_completion_time : Z
}.

(** Lines 50-56: the comparison and the update of the best candidate. *)
Definition consider (b : option best) (job : nat) (machine processing_time start_time : Z)
  : option best :=
  let new := {| best_processing_time := processing_time;
                best_start_time := start_time;
                best_job := job;
                best_machine := machine;
                best_completion_time := start_time + processing_time |} in
  match b with
  | None => Some new
  | Some b0 =>
      if (processing_time <? best_processing_time b0)
         || ((processing_time =? best_processing_time b0)
             && (start_time <? best_start_time b0))
      then Some new else b
  end.

(** Lines 45-56: [for machine in operation['eligible_machines']]. *)
Fixpoint scan_machines (st : state) (job : nat) (operation : Operation)
    (machines : list Z) (b : option best) : outcome (option best) :=
  match machines with
  | [] => Returns b
  | machine :: rest =>
      processing_time ← dict_get (processing_times operation) machine;
      avail ← py_index (machine_available st) machine;
      ready ← py_nth (job_completion st) job;
      scan_machines st job operation rest
        (consider b job machine processing_time (Z.max avail ready))
  end.

(** Lines 36-56: [for job_id in range(instance.num_jobs)]. *)
Fixpoint scan_jobs (instance : FSJPInstance) (st : state) (job_ids : list nat)
    (b : option best) : outcome (option best) :=
  match job_ids with
  | [] => Returns b
  | j :: rest =>
      idx ← py_nth (job_operation_idx st) j;
      job ← py_nth (jobs instance) j;
      if bool_decide (length (operations job) ≤ idx)%nat
      then scan_jobs instance st rest b
      else
        operation ← py_nth (operations job) idx;
        b' ← scan_machines st j operation (eligible_machines operation) b;
        scan_jobs instance st rest b'
  end.

(** Lines 27-28: the [all(...)] of the loop condition, which stops at the
    first job that is not finished. *)
Fixpoint all_done (instance : FSJPInstance) (st : state) (job_ids : list nat)
  : outcome bool :=
  match job_ids with
  | [] => Returns true
  | j :: rest =>
      idx ← py_nth (job_operation_idx st) j;
      job ← py_nth (jobs instance) j;
      if bool_decide (length (operations job) ≤ idx)%nat
      then all_done instance st rest
      else Returns false
  end.

(** Lines 59-73: commit the best candidate, if there is one. *)
Definition commit (instance : FSJPInstance) (st : state) (b : option best)
  : outcome state :=
  match b with
  | None => Returns st
  | Some b =>
      job ← py_nth (jobs instance) (best_job b);
      idx ← py_nth (job_operation_idx st) (best_job b);
      operation ← py_nth (operations job) idx;
      let entry := {| e_job_id := Some (Z.of_nat (best_job b));
                      e_operation_id := Some (operation_id operation);
                      e_machine := Some (best_machine b);
                      e_start_time := Some (best_start_time b);
                      e_completion_time := Some (best_completion_time b) |} in
      ma ← py_store (machine_available st) (best_machine b) (best_completion_time b);
      Returns {| machine_available := ma;
                 job_operation_idx := <[best_job b := S idx]> (job_operation_idx st);
                 job_completion := <[best_job b := best_completion_time b]> (job_completion st);
                 sched := sched st ++ [entry] |}
  end.

(** One pass through the body of the [while] loop. *)
Definition step (instance : FSJPInstance) (st : state) : outcome state :=
  b ← scan_jobs instance st (seq 0 (num_jobs instance)) None;
  commit instance st b.

(** The [while] loop, run for at most [fuel] evaluations of its condition. *)
Fixpoint loop (fuel : nat) (instance : FSJPInstance) (st : state) : outcome state :=
  match fuel with
  | O => OutOfFuel
  | S fuel' =>
      done ← all_done instance st (seq 0 (num_jobs instance));
      if done : bool then Returns st
      else st' ← step instance st; loop fuel' instance st'
  end.

(** Lines 18-25. *)
Definition init (instance : FSJPInstance) : state :=
  {| machine_available := replicate (num_machines instance) 0;
     job_operation_idx := replicate (num_jobs instance) 0%nat;
     job_completion := replicate (num_jobs instance) 0;
     sched := [] |}.

End SPT.

(** [shortest_processing_time(instance)], its loop bounded by [fuel]. *)
Definition shortest_processing_time (fuel : nat) (instance : FSJPInstance)
  : outcome Solution :=
  st ← SPT.loop fuel instance (SPT.init instance);
  m ← py_max (SPT.job_completion st);
  Returns {| makespan := Finite m;
             schedule := Some (SPT.sched st);
             algorithm_type := Some "shortest_processing_time";
             error := None;
             execution_time := None |}.

(** ** The validator ([src/utils.py], [validate_solution]) *)

Module Validate.

(** Lines 195-198: the set of scheduled [(job_id, operation_id)] keys. *)
Fixpoint collect (schedule : list Entry) (scheduled_ops : gset (Z * Z))
  : outcome (gset (Z * Z)) :=
  match schedule with
  | [] => Returns scheduled_ops
  | op :: rest =>
      j ← field "job_id" (e_job_id op);
      o ← field "operation_id" (e_operation_id op);
      collect rest ({[ (j, o) ]} ∪ scheduled_ops)
  end.

(** Lines 203-205: [for op_id in range(len(job['operations']))]. *)
Fixpoint first_missing (scheduled_ops : gset (Z * Z)) (job : nat) (op_ids : list nat)
  : option string :=
  match op_ids with
  | [] => None
  | op_id :: rest =>
      if bool_decide ((Z.of_nat job, Z.of_nat op_id) ∈ scheduled_ops)
      then first_missing scheduled_ops job rest
      else Some ("Operation " +:+ pretty op_id +:+ " of job " +:+ pretty job
                 +:+ " is not scheduled")
  end.

(** Lines 200-205: [for job_id, job in enumerate(instance.jobs)]; the result
    is the message of the early return, or [total_required_ops]. *)
Fixpoint completeness (scheduled_ops : gset (Z * Z)) (job : nat) (js : list Job)
    (total_required_ops : nat) : string + nat :=
  match js with
  | [] => inr total_required_ops
  | jb :: rest =>
      match first_missing scheduled_ops job (seq 0 (length (operations jb))) with
      | Some msg => inl msg
      | None => completeness scheduled_ops (S job) rest
                  (total_required_ops + length (operations jb))%nat
      end
  end.

(** [[op for op in schedule if op[key] == v]] *)
Fixpoint select (key : string) (get : Entry → option Z) (v : Z) (schedule : list Entry)
  : outcome (list Entry) :=
  match schedule with
  | [] => Returns []
  | op :: rest =>
      x ← field key (get op);
      r ← select key get v rest;
      Returns (if bool_decide (x = v) then op :: r else r)
  end.

(** [list.sort(key=...)]: the keys of all elements are computed first, then
    the list is sorted stably on them. *)
Fixpoint decorate (key : string) (get : Entry → option Z) (l : list Entry)
  : outcome (list (Z * Entry)) :=
  match l with
  | [] => Returns []
  | op :: rest =>
      k ← field key (get op);
      r ← decorate key get rest;
      Returns ((k, op) :: r)
  end.

Fixpoint insert_sorted (x : Z * Entry) (l : list (Z * Entry)) : list (Z * Entry) :=
  match l with
  | [] => [x]
  | y :: r => if bool_decide (x.1 ≤ y.1) then x :: y :: r else y :: insert_sorted x r
  end.

Definition stable_sort (l : list (Z * Entry)) : list (Z * Entry) :=
  foldr insert_sorted [] l.

Definition sort_by (key : string) (get : Entry → option Z) (l : list Entry)
  : outcome (list Entry) :=
  d ← decorate key get l;
  Returns (snd <$> stable_sort d).

(** Lines 216-217 and 228-229: [for i in range(1, len(ops))], returning the
    first [ops[i]] that starts before [ops[i-1]] completes. *)
Fixpoint first_overlap (ops : list Entry) : outcome (option Entry) :=
  match ops with
  | prev :: rest =>
      match rest with
      | cur :: _ =>
          c ← field "completion_time" (e_completion_time prev);
          s ← field "start_time" (e_start_time cur);
          if bool_decide (c > s) then Returns (Some cur) else first_overlap rest
      | [] => Returns None
      end
  | [] => Returns None
  end.

(** Lines 211-218. *)
Fixpoint check_precedence (schedule : list Entry) (job_ids : list nat)
  : outcome (option string) :=
  match job_ids with
  | [] => Returns None
  | job :: rest =>
      job_ops ← select "job_id" e_job_id (Z.of_nat job) schedule;
      job_ops ← sort_by "operation_id" e_operation_id job_ops;
      v ← first_overlap job_ops;
      match v with
      | Some cur =>
          o ← field "operation_id" (e_operation_id cur);
          Returns (Some ("Operation " +:+ pretty o +:+ " of job " +:+ pretty job
                         +:+ " starts before previous operation completes"))
      | None => check_precedence schedule rest
      end
  end.

(** Lines 221-230. *)
Fixpoint check_machines (schedule : list Entry) (machine_ids : list nat)
  : outcome (option string) :=
  match machine_ids with
  | [] => Returns None
  | machine :: rest =>
      machine_ops ← select "machine" e_machine (Z.of_nat machine) schedule;
      machine_ops ← sort_by "start_time" e_start_time machine_ops;
      v ← first_overlap machine_ops;
      match v with
      | Some _ =>
          Returns (Some ("Operations on machine " +:+ pretty machine
                         +:+ " overlap in time"))
      | None => check_machines schedule rest
      end
  end.

End Validate.

Definition duplicate_operations : string := "Schedule contains duplicate operations".

Definition validate_solution (instance : FSJPInstance) (solution : Solution)
  : outcome (bool * option string) :=
  let sch := default [] (schedule solution) in
  scheduled_ops ← Validate.collect sch ∅;
  match Validate.completeness scheduled_ops 0 (jobs instance) 0 with
  | inl msg => Returns (false, Some msg)
  | inr total_required_ops =>
      if bool_decide (size scheduled_ops ≠ total_required_ops)
      then Returns (false, Some duplicate_operations)
      else
        p ← Validate.check_precedence sch (seq 0 (num_jobs instance));
        match p with
        | Some msg => Returns (false, Some msg)
        | None =>
            m ← Validate.check_machines sch (seq 0 (num_machines instance));
            match m with
            | Some msg => Returns (false, Some msg)
            | None => Returns (true, None)
            end
        end
  end.

(** ** [run_algorithm] ([src/algorithms/__init__.py]) *)

(** What a scheduling function hands back: a dict, or some other value. *)
Inductive algo_return := AsDict (s : Solution) | NotADict.

Definition algorithm : Type := FSJPInstance → outcome algo_return.

Definition failure (msg : string) (t : option Q) : Solution :=
  {| makespan := Inf; schedule := None; algorithm_type := None;
     error := Some msg; execution_time := t |}.

(** Lines 60-84. [algorithms] is what [load_algorithms()] returned and
    [elapsed] the difference of the two clock readings. *)
Definition run_algorithm (algorithms : gmap string algorithm) (elapsed : Q)
    (name : string) (instance : FSJPInstance) : outcome Solution :=
  match algorithms !! name with
  | None => Returns (failure ("Unknown algorithm: " +:+ name) None)
  | Some alg =>
      result ← match alg instance with
               | Returns r => Returns r
               | Raises e =>
                   Returns (AsDict (failure ("Error running " +:+ name +:+ ": " +:+ str e) None))
               | OutOfFuel => OutOfFuel
               end;
      match result with
      | AsDict s =>
          Returns {| makespan := makespan s; schedule := schedule s;
                     algorithm_type := algorithm_type s; error := error s;
                     execution_time := Some elapsed |}
      | NotADict =>
          Returns (failure ("Algorithm " +:+ name +:+ " didn't return a valid result")
                     (Some elapsed))
      end
  end.

(** ** Vocabulary of the specification *)

(** The instance invariants: at least one job, [num_jobs] jobs, every
    operation numbered by its position, with at least one eligible machine,
    every eligible machine in [[0, num_machines)] and given a strictly positive
    duration. *)
Definition valid_machine (n : nat) (op : Operation) (m : Z) : bool :=
  bool_decide (0 ≤ m < Z.of_nat n)
  && match processing_times op !! m with
     | Some d => bool_decide (0 < d)
     | None => false
     end.

Definition valid_operation (n : nat) (kop : nat * Operation) : bool :=
  bool_decide (operation_id kop.2 = Z.of_nat kop.1)
  && bool_decide (eligible_machines kop.2 ≠ [])
  && forallb (valid_machine n kop.2) (eligible_machines kop.2).

Definition valid_job (n : nat) (jb : Job) : bool :=
  forallb (valid_operation n) (zip (seq 0 (length (operations jb))) (operations jb)).

Definition valid_instance (instance : FSJPInstance) : bool :=
  bool_decide (0 < num_jobs instance)%nat
  && bool_decide (length (jobs instance) = num_jobs instance)
  && forallb (valid_job (num_machines instance)) (jobs instance).

(** The pairs the validator requires, jobs and operations numbered by
    position (lines 201-204); in an instance that meets the invariants the
    position of an operation is its [operation_id]. *)
Fixpoint pairs_from (j : nat) (js : list Job) : list (Z * Z) :=
  match js with
  | [] => []
  | jb :: rest =>
      ((λ k : nat, (Z.of_nat j, Z.of_nat k)) <$> seq 0 (length (operations jb)))
      ++ pairs_from (S j) rest
  end.

Definition instance_pairs (instance : FSJPInstance) : list (Z * Z) :=
  pairs_from 0 (jobs instance).

Definition total_operations (instance : FSJPInstance) : nat :=
  sum_list ((λ jb, length (operations jb)) <$> jobs instance).

(** The value of a field, 0 standing in for an absent one. *)
Definition field_value (get : Entry → option Z) (e : Entry) : Z := default 0 (get e).

(** Field readers for entries that have the field. *)
Definition jid (e : Entry) : Z := default 0 (e_job_id e).
Definition oid (e : Entry) : Z := default 0 (e_operation_id e).
Definition mid (e : Entry) : Z := default 0 (e_machine e).
Definition stime (e : Entry) : Z := default 0 (e_start_time e).
Definition ctime (e : Entry) : Z := default 0 (e_completion_time e).

Definition has_key (e : Entry) : bool :=
  bool_decide (is_Some (e_job_id e)) && bool_decide (is_Some (e_operation_id e)).

(** All five fields present. *)
Definition full_entry (e : Entry) : bool :=
  has_key e
  && bool_decide (is_Some (e_machine e)) && bool_decide (is_Some (e_start_time e))
  && bool_decide (is_Some (e_completion_time e)).

Definition entry_key (e : Entry) : Z * Z := (jid e, oid e).

Definition mk_entry (j o m s c : Z) : Entry :=
  {| e_job_id := Some j; e_operation_id := Some o; e_machine := Some m;
     e_start_time := Some s; e_completion_time := Some c |}.

Definition solution_of (sch : list Entry) : Solution :=
  {| makespan := Finite 0; schedule := Some sch; algorithm_type := None;
     error := None; execution_time := None |}.

(** The makespan the heuristic returns. *)
Definition spt_makespan (fuel : nat) (instance : FSJPInstance) : outcome time_ext :=
  r ← shortest_processing_time fuel instance; Returns (makespan r).

(** [instance] with one more job, the machines unchanged. *)
Definition add_job (instance : FSJPInstance) (jb : Job) : FSJPInstance :=
  {| seed := seed instance;
     num_jobs := S (num_jobs instance);
     num_machines := num_machines instance;
     jobs := jobs instance ++ [jb] |}.

(** ** The loop of the heuristic as a transition system *)

Module Run.
Import SPT.

(** One operation is dispatched: operation [k] of job [j], the next one of
    that job, goes to its eligible machine [m]. *)
Inductive fires (instance : FSJPInstance) (st : state) : state → Prop :=
  | Fires (j k m : nat) (jb : Job) (op : Operation) (d avail ready : Z) :
      jobs instance !! j = Some jb →
      job_operation_idx st !! j = Some k →
      operations jb !! k = Some op →
      Z.of_nat m ∈ eligible_machines op →
      processing_times op !! Z.of_nat m = Some d →
      machine_available st !! m = Some avail →
      job_completion st !! j = Some ready →
      fires instance st
        {| machine_available := <[m := Z.max avail ready + d]> (machine_available st);
           job_operation_idx := <[j := S k]> (job_operation_idx st);
           job_completion := <[j := Z.max avail ready + d]> (job_completion st);
           sched := sched st ++ [mk_entry (Z.of_nat j) (operation_id op) (Z.of_nat m)
                                   (Z.max avail ready) (Z.max avail ready + d)] |}.

(** Shape of a reachable state. *)
Record wf (instance : FSJPInstance) (st : state) : Prop := {
  wf_machines : length (machine_available st) = num_machines instance;
  wf_completion : length (job_completion st) = num_jobs instance;
  wf_cursor : Forall2 (λ n jb, n ≤ length (operations jb))%nat
                (job_operation_idx st) (jobs instance)
}.

(** Every job's cursor is past its last operation. *)
Definition finished (instance : FSJPInstance) (st : state) : Prop :=
  Forall2 (λ n jb, n = length (operations jb)) (job_operation_idx st) (jobs instance).

(** What the running best candidate stands for. *)
Definition candidate (instance : FSJPInstance) (st : state) (b : best) : Prop :=
  ∃ (m : nat) jb k op avail ready,
    best_machine b = Z.of_nat m ∧
    jobs instance !! best_job b = Some jb ∧
    job_operation_idx st !! best_job b = Some k ∧
    operations jb !! k = Some op ∧
    Z.of_nat m ∈ eligible_machines op ∧
    processing_times op !! Z.of_nat m = Some (best_processing_time b) ∧
    machine_available st !! m = Some avail ∧
    job_completion st !! best_job b = Some ready ∧
    best_start_time b = Z.max avail ready ∧
    best_completion_time b = Z.max avail ready + best_processing_time b.

(** Order of two entries of a schedule built by the heuristic: the earlier one
    precedes the later one in its job and on its machine. *)
Definition before (a b : Entry) : Prop :=
  (jid a = jid b → oid a ≤ oid b ∧ ctime a ≤ stime b)
  ∧ (mid a = mid b → stime a ≤ stime b ∧ ctime a ≤ stime b).

(** An entry of the schedule built so far, against the loop state. *)
Definition entry_ok (st : state) (e : Entry) : Prop :=
  ∃ (j k m n : nat) (s c r a : Z),
    e = mk_entry (Z.of_nat j) (Z.of_nat k) (Z.of_nat m) s c ∧
    job_operation_idx st !! j = Some n ∧ (k < n)%nat ∧
    job_completion st !! j = Some r ∧ c ≤ r ∧
    machine_available st !! m = Some a ∧ c ≤ a ∧
    s ≤ c.

(** The invariant behind completeness and validity of the result. *)
Record sched_inv (st : state) : Prop := {
  inv_entries : Forall (entry_ok st) (sched st);
  inv_order : StronglySorted before (sched st);
  inv_nodup : NoDup (entry_key <$> sched st);
  inv_present : ∀ (j k n : nat), job_operation_idx st !! j = Some n → (k < n)%nat →
                  (Z.of_nat j, Z.of_nat k) ∈ entry_key <$> sched st;
  inv_count : length (sched st) = sum_list (job_operation_idx st)
}.

(** Single machine: the duration of an operation, and the work dispatched so
    far. *)
Definition duration0 (op : Operation) : Z := default 0 (processing_times op !! 0).

Definition work (ops : list Operation) : Z := foldr (λ op acc, duration0 op + acc) 0 ops.

Fixpoint done_work (idx : list nat) (js : list Job) : Z :=
  match idx, js with
  | n :: idx', jb :: js' => work (take n (operations jb)) + done_work idx' js'
  | _, _ => 0
  end.

Definition total_work (instance : FSJPInstance) : Z :=
  foldr (λ jb acc, work (operations jb) + acc) 0 (jobs instance).

(** The invariant on one machine: it is never idle. *)
Record single_inv (instance : FSJPInstance) (st : state) : Prop := {
  single_avail : machine_available st = [done_work (job_operation_idx st) (jobs instance)];
  single_bound : Forall (λ r, r ≤ done_work (job_operation_idx st) (jobs instance))
                   (job_completion st);
  single_reached : done_work (job_operation_idx st) (jobs instance) ∈ job_completion st
}.

End Run.

(** ** Concrete instances and schedules *)

Module Examples.

(** An operation with the same duration on each of its machines, as the
    generator of [src/main.py] builds them. *)
Definition uniform_op (k : Z) (machines : list Z) (d : Z) : Operation :=
  {| operation_id := k; eligible_machines := machines;
     processing_times := list_to_map ((λ m, (m, d)) <$> machines) |}.

Definition single_op_job (j : Z) (machines : list Z) (d : Z) : Job :=
  {| job_id := j; operations := [uniform_op 0 machines d] |}.

(** One machine, two jobs of one operation each, durations 10 and 5. *)
Definition two_jobs : FSJPInstance :=
  {| seed := 0; num_jobs := 2; num_machines := 1;
     jobs := [single_op_job 0 [0] 10; single_op_job 1 [0] 5] |}.

(** One machine, one job of one operation of duration 5. *)
Definition one_job : FSJPInstance :=
  {| seed := 0; num_jobs := 1; num_machines := 1;
     jobs := [single_op_job 0 [0] 5] |}.

(** The operation of [one_job] scheduled twice, one run after the other. *)
Definition twice : list Entry := [mk_entry 0 0 0 0 5; mk_entry 0 0 0 5 10].


(** One job whose only operation has no eligible machine. *)
Definition stuck : FSJPInstance :=
  {| seed := 0; num_jobs := 1; num_machines := 1;
     jobs := [single_op_job 0 [] 5] |}.

(** One machine, an operation that names machine 5. *)
Definition bad_machine : FSJPInstance :=
  {| seed := 0; num_jobs := 1; num_machines := 1;
     jobs := [single_op_job 0 [5] 5] |}.

(** The registry with the heuristic under its name. *)
Definition registry : gmap string algorithm :=
  {[ "shortest_processing_time" :=
       λ instance, r ← shortest_processing_time 10 instance; Returns (AsDict r) ]}.

(** Two machines; a job of duration 3 on machine 0 and a job of duration 2 on
    either machine; the job added to it has duration 1 on machine 0. *)
Definition anomaly : FSJPInstance :=
  {| seed := 0; num_jobs := 2; num_machines := 2;
     jobs := [single_op_job 0 [0] 3; single_op_job 1 [0; 1] 2] |}.
Definition short_job : Job := single_op_job 2 [0] 1.

(** [8 ** 0.5] as the double it is: 0x16A09E667F3BCD / 2^51. *)
Definition sqrt8 : Q := 6369051672525773 # 2251799813685248.
Definition power_sqrt8 (n : Z) (e : number) : outcome number := Returns (Real sqrt8).

End Examples.

(** ** The instance generator ([src/main.py], lines 20-80) *)

(** The part of [config.json] the constructor reads:
    [difficulty_parameters.num_jobs] and, from [fixed_parameters],
    [machine_scaling_exponent], [operations_per_job], [flexibility] and the
    optional [operation_duration]. *)
Record Config := {
  cfg_num_jobs : Z;
  cfg_machine_scaling_exponent : number;
  cfg_operations_per_job : Z * Z;
  cfg_flexibility : Z * Z;
  cfg_operation_duration : option (Z * Z)
}.

(** Python's [random] module, as far as the generator uses it: a generator
    state, [random.seed], [random.randint(a, b)],
    [random.sample(range(n), k)] and [random.uniform(a, b)], which draws a
    duration (a time, hence in [Z] like every time of the embedding). *)
Record Random := {
  rng : Type;
  rng_seed : Z → rng;
  randint : Z → Z → rng → outcome (Z * rng);
  sample_range : nat → Z → rng → outcome (list Z * rng);
  uniform : Z → Z → rng → Z * rng
}.

(** What the library documents of these functions. *)
Record random_ok (R : Random) : Prop := {
  randint_in_range : ∀ a b g, a ≤ b →
    ∃ x g', randint R a b g = Returns (x, g') ∧ a ≤ x ≤ b;
  randint_empty : ∀ a b g, b < a →
    ∃ e, randint R a b g = Raises e ∧ exn_class e = ValueError;
  sample_distinct : ∀ n k g, 0 ≤ k ≤ Z.of_nat n →
    ∃ l g', sample_range R n k g = Returns (l, g')
            ∧ NoDup l ∧ Z.of_nat (length l) = k
            ∧ ∀ m, m ∈ l → 0 ≤ m < Z.of_nat n;
  sample_too_large : ∀ n k g, k < 0 ∨ Z.of_nat n < k →
    ∃ e, sample_range R n k g = Raises e ∧ exn_class e = ValueError;
  uniform_in_range : ∀ a b g, a ≤ b → a ≤ (uniform R a b g).1 ≤ b
}.

Module Generator.
Section Generate.
Context (R : Random) (config : Config) (machines : nat).

(** Lines 49-73: [for op_id in range(num_operations)]. *)
Fixpoint generate_operations (op_ids : list nat) (g : rng R)
  : outcome (list Operation * rng R) :=
  match op_ids with
  | [] => Returns ([], g)
  | op_id :: rest =>
      '(flexibility, g1) ← randint R (cfg_flexibility config).1
                             (Z.min (cfg_flexibility config).2 (Z.of_nat machines)) g;
      '(eligible, g2) ← sample_range R machines flexibility g1;
      let duration_range := default (10, 100) (cfg_operation_duration config) in
      let '(processing_time, g3) := uniform R duration_range.1 duration_range.2 g2 in
      '(ops, g4) ← generate_operations rest g3;
      Returns ({| operation_id := Z.of_nat op_id;
                  eligible_machines := eligible;
                  processing_times :=
                    list_to_map ((λ machine, (machine, processing_time)) <$> eligible) |}
               :: ops, g4)
  end.

(** Lines 42-78: [for job_id in range(self.num_jobs)]. *)
Fixpoint generate_jobs (job_ids : list nat) (g : rng R)
  : outcome (list Job * rng R) :=
  match job_ids with
  | [] => Returns ([], g)
  | job :: rest =>
      '(num_operations, g1) ← randint R (cfg_operations_per_job config).1
                                (cfg_operations_per_job config).2 g;
      '(ops, g2) ← generate_operations (seq 0 (Z.to_nat num_operations)) g1;
      '(js, g3) ← generate_jobs rest g2;
      Returns ({| job_id := Z.of_nat job; operations := ops |} :: js, g3)
  end.

End Generate.

(** [np.random.seed(seed)], line 27: NumPy takes seeds from 0 to 2**32 - 1
    only. ([random.seed], line 26, takes any integer.) *)
Definition np_random_seed (seed : Z) : outcome unit :=
  if bool_decide (0 ≤ seed < 2 ^ 32) then Returns ()
  else Raises (Exn ValueError "Seed must be between 0 and 2**32 - 1").

(** [FSJPInstance(seed, num_jobs)], lines 23-36. Counts are kept as [nat]:
    a negative [num_jobs] gives an empty [range], as 0 does. *)
Definition new_instance (R : Random) (power : Z → number → outcome number)
    (config : Config) (seed : Z) (num_jobs : option Z) : outcome FSJPInstance :=
  let g := rng_seed R seed in
  _ ← np_random_seed seed;
  let jobs_wanted := default (cfg_num_jobs config) num_jobs in
  machines ← init_num_machines power jobs_wanted (cfg_machine_scaling_exponent config);
  '(js, _) ← generate_jobs R config (Z.to_nat machines) (seq 0 (Z.to_nat jobs_wanted)) g;
  Returns {| seed := seed; num_jobs := Z.to_nat jobs_wanted;
             num_machines := Z.to_nat machines; jobs := js |}.

End Generator.

(** ** [load_algorithms] and the whole of [run_algorithm]
       ([src/algorithms/__init__.py]) *)

(** What [load_algorithms] takes from outside the program:
    [config_algorithms] is the outcome of opening and parsing [config.json]
    and listing [config['algorithms'].items()] (each step can raise);
    [import_function name] is the outcome of importing the module
    [algorithms.<name>] and looking up its attribute [name]: [None] when the
    module has no such attribute, an exception when the import raises. *)
Record Loader := {
  config_algorithms : outcome (list (string * bool));
  import_function : string → outcome (option algorithm)
}.

Module Load.

(** Lines 24-39: [for alg_name, enabled in config['algorithms'].items()].
    Only [ImportError] is caught; a module without the function is skipped
    with a warning. *)
Fixpoint load_enabled (L : Loader) (items : list (string * bool))
    (algorithms : gmap string algorithm) : outcome (gmap string algorithm) :=
  match items with
  | [] => Returns algorithms
  | (alg_name, enabled) :: rest =>
      if negb enabled then load_enabled L rest algorithms
      else
        match import_function L alg_name with
        | Returns (Some f) => load_enabled L rest (<[alg_name := f]> algorithms)
        | Returns None => load_enabled L rest algorithms
        | Raises e =>
            match exn_class e with
            | ImportError => load_enabled L rest algorithms
            | _ => Raises e
            end
        | OutOfFuel => OutOfFuel
        end
  end.

End Load.

(** [load_algorithms()], lines 10-41. *)
Definition load_algorithms (L : Loader) : outcome (gmap string algorithm) :=
  items ← config_algorithms L;
  Load.load_enabled L items ∅.

(** [run_algorithm(name, instance)] as a whole, lines 44-84: the call of
    [load_algorithms()] on line 58, outside the [try], then lines 60-84. *)
Definition run_algorithm_call (L : Loader) (elapsed : Q) (name : string)
    (instance : FSJPInstance) : outcome Solution :=
  algorithms ← load_algorithms L;
  run_algorithm algorithms elapsed name instance.

(** An operation as the configuration asks for it: numbered [k], on distinct
    machines of the instance, as many as the flexibility range allows, with
    one duration from the duration range on each of them and none elsewhere. *)
Definition operation_as_configured (config : Config) (machines : nat) (k : nat)
    (op : Operation) : Prop :=
  operation_id op = Z.of_nat k
  ∧ NoDup (eligible_machines op)
  ∧ (∀ m, m ∈ eligible_machines op → 0 ≤ m < Z.of_nat machines)
  ∧ (cfg_flexibility config).1 ≤ Z.of_nat (length (eligible_machines op))
      ≤ Z.min (cfg_flexibility config).2 (Z.of_nat machines)
  ∧ ∃ d, (default (10, 100) (cfg_operation_duration config)).1 ≤ d
           ≤ (default (10, 100) (cfg_operation_duration config)).2
         ∧ ∀ m, processing_times op !! m
                = if bool_decide (m ∈ eligible_machines op) then Some d else None.

(** A job as the configuration asks for it: numbered [j], with a number of
    operations drawn from the range, each as configured and numbered by its
    position. *)
Definition job_as_configured (config : Config) (machines : nat) (j : nat)
    (jb : Job) : Prop :=
  job_id jb = Z.of_nat j
  ∧ (∃ n, (cfg_operations_per_job config).1 ≤ n ≤ (cfg_operations_per_job config).2
          ∧ length (operations jb) = Z.to_nat n)
  ∧ Forall2 (operation_as_configured config machines)
      (seq 0 (length (operations jb))) (operations jb).

(** ** Vocabulary for the further properties *)

Module Dispatch.
Import SPT.

(** An entry as the heuristic builds it: operation [k] of job [j] on one of
    its eligible machines, for the duration the instance gives it there. *)
Definition dispatched (instance : FSJPInstance) (e : Entry) : Prop :=
  ∃ (j k m : nat) (jb : Job) (op : Operation) (d s : Z),
    e = mk_entry (Z.of_nat j) (Z.of_nat k) (Z.of_nat m) s (s + d)
    ∧ jobs instance !! j = Some jb
    ∧ operations jb !! k = Some op
    ∧ Z.of_nat m ∈ eligible_machines op
    ∧ processing_times op !! Z.of_nat m = Some d
    ∧ 0 < d ∧ 0 ≤ s.

(** The completion time of the last entry of [l] that meets [P], 0 when
    there is none. *)
Definition last_completion (P : Entry → bool) (l : list Entry) : Z :=
  foldl (λ acc e, if P e then ctime e else acc) 0 l.

Definition on_machine (m : Z) (e : Entry) : bool := bool_decide (mid e = m).
Definition of_job (j : Z) (e : Entry) : bool := bool_decide (jid e = j).

(** Every entry starts when its machine and its job are both free, and not
    later. *)
Definition earliest_starts (l : list Entry) : Prop :=
  ∀ l1 e l2, l = l1 ++ e :: l2 →
    stime e = Z.max (last_completion (on_machine (mid e)) l1)
                    (last_completion (of_job (jid e)) l1).

(** The loop state records the last completion on each machine and of each
    job. *)
Record times_inv (instance : FSJPInstance) (st : state) : Prop := {
  ti_entries : Forall (dispatched instance) (sched st);
  ti_machines : ∀ (m : nat) a, machine_available st !! m = Some a →
                  a = last_completion (on_machine (Z.of_nat m)) (sched st);
  ti_jobs : ∀ (j : nat) r, job_completion st !! j = Some r →
              r = last_completion (of_job (Z.of_nat j)) (sched st);
  ti_starts : earliest_starts (sched st)
}.


End Dispatch.

(** The exceptions a failed list or dict read raises. *)
Definition lookup_error (e : exn) : Prop :=
  exn_class e = IndexError ∨ exn_class e = KeyError.

Module Samples.
Import Examples.

(** One machine, one job of two operations of durations 3 and 4. *)
Definition chain : FSJPInstance :=
  {| seed := 0; num_jobs := 1; num_machines := 1;
     jobs := [{| job_id := 0; operations := [uniform_op 0 [0] 3; uniform_op 1 [0] 4] |}] |}.

Definition chain_schedule : list Entry := [mk_entry 0 0 0 0 3; mk_entry 0 1 0 3 7].

(** No job at all. *)
Definition no_jobs : FSJPInstance :=
  {| seed := 0; num_jobs := 0; num_machines := 1; jobs := [] |}.

(** [num_jobs] counts one job more than [jobs] holds. *)
Definition short_jobs : FSJPInstance :=
  {| seed := 0; num_jobs := 2; num_machines := 1; jobs := [single_op_job 0 [0] 5] |}.

(** A stand-in for [random] that always draws the lowest value: the lower
    bound, and the first [k] machines. *)
Definition lowest : Random :=
  {| rng := unit;
     rng_seed := λ _, tt;
     randint := λ a b g,
       if bool_decide (a ≤ b) then Returns (a, g)
       else Raises (Exn ValueError "empty range for randrange()");
     sample_range := λ n k g,
       if bool_decide (0 ≤ k ≤ Z.of_nat n)
       then Returns (Z.of_nat <$> seq 0 (Z.to_nat k), g)
       else Raises (Exn ValueError "Sample larger than population or is negative");
     uniform := λ a b g, (a, g) |}.

(** 4 jobs of 2 to 3 operations, 1 to 2 eligible machines, durations in
    [10, 100], machines growing as the power says. *)
Definition small_config : Config :=
  {| cfg_num_jobs := 4; cfg_machine_scaling_exponent := Real (1 # 2);
     cfg_operations_per_job := (2, 3); cfg_flexibility := (1, 2);
     cfg_operation_duration := None |}.

(** What the constructor builds from [small_config] with [lowest]. *)
Definition generated : FSJPInstance :=
  {| seed := 7; num_jobs := 4; num_machines := 2;
     jobs := (λ j, {| job_id := j;
                      operations := [uniform_op 0 [0] 10; uniform_op 1 [0] 10] |})
             <$> [0; 1; 2; 3] |}.

(** The same with a flexibility of at least 5 machines. *)
Definition greedy_config : Config :=
  {| cfg_num_jobs := 4; cfg_machine_scaling_exponent := Real (1 # 2);
     cfg_operations_per_job := (2, 3); cfg_flexibility := (5, 6);
     cfg_operation_duration := None |}.

(** The same with operations that no machine can process. *)
Definition rigid_config : Config :=
  {| cfg_num_jobs := 4; cfg_machine_scaling_exponent := Real (1 # 2);
     cfg_operations_per_job := (2, 3); cfg_flexibility := (0, 0);
     cfg_operation_duration := None |}.

(** A power that is exact on these examples: the square root of 4. *)
Definition power_two (n : Z) (e : number) : outcome number := Returns (Real (2 # 1)).

(** A loader whose configuration enables the heuristic and a module that
    does not exist. *)
Definition sample_loader : Loader :=
  {| config_algorithms :=
       Returns [("shortest_processing_time", true); ("tabu_search", true)];
     import_function := λ name,
       if bool_decide (name = "shortest_processing_time")
       then Returns (Some (λ instance, r ← shortest_processing_time 10 instance;
                                       Returns (AsDict r)))
       else Raises (Exn ImportError ("No module named 'algorithms." +:+ name +:+ "'")) |}.

(** A loader that finds no [config.json]. *)
Definition no_config : Loader :=
  {| config_algorithms :=
       Raises (Exn FileNotFoundError
                 "[Errno 2] No such file or directory: 'config.json'");
     import_function := λ _, Returns None |}.

End Samples.

(** * Properties *)

Import Examples.

(** ** Concrete runs *)

(** C8. On one machine and two single-operation jobs of durations 10 and 5,
    the heuristic dispatches the duration-5 operation first (start 0,
    completion 5), then the duration-10 one (start 5, completion 15), and
    returns makespan 15; three evaluations of the loop condition suffice. *)
Theorem C8_two_jobs_scenario (extra : nat) :
  shortest_processing_time (3 + extra) two_jobs =
  Returns {| makespan := Finite 15;
             schedule := Some [mk_entry 1 0 0 0 5; mk_entry 0 0 0 5 15];
             algorithm_type := Some "shortest_processing_time";
             error := None;
             execution_time := None |}.
Proof. vm_compute. reflexivity. Qed.

(** C6 (the code diverges). On an instance whose only operation has no
    eligible machine, the loop body changes nothing, so the heuristic neither
    returns nor raises, whatever the number of iterations it is given. *)
Theorem C6_stuck_never_returns (fuel : nat) :
  shortest_processing_time fuel stuck = OutOfFuel.
Proof.
  unfold shortest_processing_time.
  assert (H : SPT.loop fuel stuck (SPT.init stuck) = OutOfFuel).
  { induction fuel as [|fuel IH]; [reflexivity|].
    change (SPT.loop (S fuel) stuck (SPT.init stuck))
      with (SPT.loop fuel stuck (SPT.init stuck)).
    exact IH. }
  rewrite H. reflexivity.
Qed.

(** C3 (the code accepts a duplicate). The only operation of [one_job]
    scheduled twice, back to back, passes the validator: the set of scheduled
    keys has one element, as many as the instance requires. *)
Theorem C3_duplicate_accepted :
  validate_solution one_job (solution_of twice) = Returns (true, None).
Proof. vm_compute. reflexivity. Qed.


(** C7, counterexample: adding the job [short_job] to [anomaly] lowers the
    makespan the heuristic returns from 5 to 4. *)
Lemma C7_counterexample :
  valid_instance anomaly = true
  ∧ valid_instance (add_job anomaly short_job) = true
  ∧ spt_makespan 3 anomaly = Returns (Finite 5)
  ∧ spt_makespan 4 (add_job anomaly short_job) = Returns (Finite 4).
Proof. repeat split; vm_compute; reflexivity. Qed.

(** ** [run_algorithm] *)

(** C4, counterexample: the heuristic raises [IndexError] on [bad_machine],
    and [run_algorithm] returns a dict whose makespan is infinite. *)
Lemma C4_counterexample :
  ∃ alg e s,
    registry !! "shortest_processing_time" = Some alg
    ∧ alg bad_machine = Raises e
    ∧ run_algorithm registry 0 "shortest_processing_time" bad_machine = Returns s
    ∧ makespan s = Inf.
Proof.
  eexists _, _, _. split; [reflexivity|].
  split; [vm_compute; reflexivity|].
  split; [vm_compute; reflexivity|reflexivity].
Qed.

(** C4, as the code has it: when the scheduling function raises an exception
    [e], [run_algorithm] catches it and returns a dict with an infinite
    makespan, the message ["Error running <name>: <str(e)>"] and the execution
    time. *)
Theorem C4_error_becomes_infinite_makespan
    (algorithms : gmap string algorithm) (elapsed : Q) (name : string)
    (instance : FSJPInstance) (alg : algorithm) (e : exn) :
  algorithms !! name = Some alg →
  alg instance = Raises e →
  run_algorithm algorithms elapsed name instance =
  Returns {| makespan := Inf; schedule := None; algorithm_type := None;
             error := Some ("Error running " +:+ name +:+ ": " +:+ str e);
             execution_time := Some elapsed |}.
Proof.
  unfold run_algorithm, algorithm in *. intros -> ->. reflexivity.
Qed.

Lemma C4_error_becomes_infinite_makespan_witness :
  run_algorithm registry 0 "shortest_processing_time" bad_machine =
  Returns {| makespan := Inf; schedule := None; algorithm_type := None;
             error := Some ("Error running " +:+ "shortest_processing_time" +:+ ": "
                            +:+ str index_error);
             execution_time := Some 0%Q |}.
Proof.
  apply (C4_error_becomes_infinite_makespan registry 0 "shortest_processing_time"
           bad_machine
           (λ instance, r ← shortest_processing_time 10 instance; Returns (AsDict r))
           index_error).
  - reflexivity.
  - vm_compute. reflexivity.
Defined.

(** ** The number of machines *)

(** C5, counterexample: with 8 jobs and exponent 0.5 the power is
    2.828..., which [int] truncates to 2 where rounding gives 3. *)
Lemma C5_counterexample :
  init_num_machines power_sqrt8 8 (Real (1 # 2)) = Returns 2
  ∧ (p ← power_sqrt8 8 (Real (1 # 2)); r ← py_round p; Returns (Z.max 1 r)) = Returns 3.
Proof. split; vm_compute; reflexivity. Qed.

Lemma quot_le_div (a : Z) (b : positive) : 1 `max` (a `quot` Z.pos b) = 1 `max` (a `div` Z.pos b).
Proof.
  destruct (Z.le_gt_cases 0 a) as [Ha|Ha].
  - rewrite Z.quot_div_nonneg; lia.
  - assert (a `div` Z.pos b < 0) by (apply Z.div_lt_upper_bound; lia).
    assert (a `quot` Z.pos b ≤ 0).
    { rewrite <- (Z.opp_involutive a), Z.quot_opp_l by lia.
      assert (0 ≤ (- a) `quot` Z.pos b) by (apply Z.quot_pos; lia). lia. }
    lia.
Qed.

(** When the power raises, or is no real number, line 33 raises. *)
Lemma init_num_machines_raises (power : Z → number → outcome number) (num_jobs : Z)
    (exponent : number) :
  match power num_jobs exponent with
  | Returns (Real p) => True
  | Returns _ => ∃ e, init_num_machines power num_jobs exponent = Raises e
  | Raises e => init_num_machines power num_jobs exponent = Raises e
  | OutOfFuel => init_num_machines power num_jobs exponent = OutOfFuel
  end.
Proof.
  unfold init_num_machines.
  destruct (power num_jobs exponent) as [[p|s| |]| |]; cbn; eauto.
Qed.

(** C5, as the code has it: for a positive number of jobs and an exponent
    for which the power is a real number [p], the number of machines is [p]
    truncated by [int], which under the [max] with 1 is its floor, and not
    [p] rounded to the nearest integer; it is the rounded value or one
    less. *)
Theorem C5_num_machines_truncates (power : Z → number → outcome number)
    (num_jobs : Z) (exponent : number) (p : Q) :
  0 < num_jobs →
  power num_jobs exponent = Returns (Real p) →
  init_num_machines power num_jobs exponent = Returns (Z.max 1 (Qfloor p))
  ∧ ∃ r, py_round (Real p) = Returns r
         ∧ Z.max 1 (Qfloor p) ≤ Z.max 1 r ≤ Z.max 1 (Qfloor p) + 1.
Proof.
  intros _ Hp. unfold init_num_machines. rewrite Hp. cbn.
  unfold truncate, round_half_even. destruct p as [a b]. cbn [Qnum Qden Qfloor].
  rewrite quot_le_div. split; [reflexivity|].
  eexists. split; [reflexivity|].
  destruct (2 * (a `mod` Z.pos b) ?= Z.pos b); [destruct (Z.even _)| |]; lia.
Qed.

(** The theorem at 8 jobs and exponent 0.5. *)
Lemma C5_num_machines_truncates_witness :
  init_num_machines power_sqrt8 8 (Real (1 # 2)) = Returns (Z.max 1 (Qfloor sqrt8))
  ∧ ∃ r, py_round (Real sqrt8) = Returns r
         ∧ Z.max 1 (Qfloor sqrt8) ≤ Z.max 1 r ≤ Z.max 1 (Qfloor sqrt8) + 1.
Proof.
  apply (C5_num_machines_truncates power_sqrt8 8 (Real (1 # 2)) sqrt8).
  - lia.
  - reflexivity.
Defined.

(** ** The instance invariants, unfolded *)

Lemma forallb_elem {A} (f : A → bool) (l : list A) (x : A) :
  forallb f l = true → x ∈ l → f x = true.
Proof.
  intros H Hx. rewrite forallb_forall in H. apply H. by apply list_elem_of_In.
Qed.

Lemma valid_instance_jobs (instance : FSJPInstance) :
  valid_instance instance = true →
  (0 < num_jobs instance)%nat ∧ length (jobs instance) = num_jobs instance.
Proof.
  unfold valid_instance. rewrite !andb_true_iff, !bool_decide_eq_true. tauto.
Qed.

Lemma valid_instance_op (instance : FSJPInstance) (j k : nat) (jb : Job) (op : Operation) :
  valid_instance instance = true →
  jobs instance !! j = Some jb →
  operations jb !! k = Some op →
  operation_id op = Z.of_nat k
  ∧ eligible_machines op ≠ []
  ∧ ∀ m, m ∈ eligible_machines op →
      0 ≤ m < Z.of_nat (num_machines instance)
      ∧ ∃ d, processing_times op !! m = Some d ∧ 0 < d.
Proof.
  unfold valid_instance. rewrite !andb_true_iff. intros [_ Hjobs] Hj Hk.
  assert (Hjb : valid_job (num_machines instance) jb = true).
  { eapply forallb_elem; [exact Hjobs|]. by eapply list_elem_of_lookup_2. }
  assert (Hop : valid_operation (num_machines instance) (k, op) = true).
  { eapply forallb_elem; [exact Hjb|].
    apply list_elem_of_lookup. exists k.
    rewrite lookup_zip_with, Hk.
    rewrite lookup_seq_lt by (by eapply lookup_lt_Some). reflexivity. }
  unfold valid_operation in Hop. cbn [fst snd] in Hop.
  rewrite !andb_true_iff, !bool_decide_eq_true in Hop.
  destruct Hop as [[Hid Hne] Hms]. split; [done|]. split; [done|].
  intros m Hm. pose proof (forallb_elem _ _ _ Hms Hm) as Hv.
  unfold valid_machine in Hv. rewrite andb_true_iff, bool_decide_eq_true in Hv.
  destruct Hv as [Hr Hd]. split; [done|].
  destruct (processing_times op !! m) as [d|]; [|done].
  exists d. split; [done|]. by apply bool_decide_eq_true in Hd.
Qed.

(** ** One pass of the loop *)

Section Pass.
Import SPT Run.
Context (instance : FSJPInstance) (Hvalid : valid_instance instance = true).

Lemma wf_cursor_length (st : state) :
  wf instance st → length (job_operation_idx st) = num_jobs instance.
Proof.
  intros Hwf. rewrite (Forall2_length _ _ _ (wf_cursor _ _ Hwf)).
  by apply valid_instance_jobs.
Qed.

Lemma wf_lookup (st : state) (j : nat) :
  wf instance st → (j < num_jobs instance)%nat →
  ∃ n jb r, job_operation_idx st !! j = Some n ∧ jobs instance !! j = Some jb
            ∧ job_completion st !! j = Some r ∧ (n ≤ length (operations jb))%nat.
Proof.
  intros Hwf Hj.
  destruct (lookup_lt_is_Some_2 (job_operation_idx st) j) as [n Hn].
  { by rewrite wf_cursor_length. }
  destruct (lookup_lt_is_Some_2 (jobs instance) j) as [jb Hjb].
  { by rewrite (proj2 (valid_instance_jobs _ Hvalid)). }
  destruct (lookup_lt_is_Some_2 (job_completion st) j) as [r Hr].
  { by rewrite (wf_completion _ _ Hwf). }
  exists n, jb, r. repeat split; try done.
  by eapply (Forall2_lookup_lr _ _ _ _ _ _ (wf_cursor _ _ Hwf)).
Qed.

(** The loop condition: [all_done] returns, and says whether every job in
    the range is finished. *)
Lemma all_done_spec (st : state) (js : list nat) :
  wf instance st → Forall (λ j, j < num_jobs instance)%nat js →
  ∃ b : bool, all_done instance st js = Returns b
    ∧ (b = true ↔ ∀ j n jb, j ∈ js → job_operation_idx st !! j = Some n →
                     jobs instance !! j = Some jb → n = length (operations jb)).
Proof.
  intros Hwf. induction 1 as [|j js Hj Hjs IH].
  - exists true. split; [done|]. split; [|done]. intros _ j n jb Hin. by apply elem_of_nil in Hin.
  - destruct (wf_lookup st j Hwf Hj) as (n & jb & r & Hn & Hjb & Hr & Hle).
    cbn [all_done]. unfold py_nth. rewrite Hn, Hjb. cbn.
    case_bool_decide as Hcmp.
    + destruct IH as (b & Hb & Hiff). exists b. split; [done|].
      rewrite Hiff. split.
      * intros Hall j' n' jb' Hin Hn' Hjb'. apply elem_of_cons in Hin as [->|Hin].
        -- rewrite Hn in Hn'. rewrite Hjb in Hjb'. simplify_eq. lia.
        -- eauto.
      * intros Hall j' n' jb' Hin. apply Hall. by right.
    + exists false. split; [done|]. split; [done|].
      intros Hall. specialize (Hall j n jb (list_elem_of_here _ _) Hn Hjb). lia.
Qed.

Lemma consider_candidate (st : state) (b : option best) (j m : nat) (jb : Job) (k : nat)
    (op : Operation) (d avail ready : Z) :
  (∀ b0, b = Some b0 → candidate instance st b0) →
  jobs instance !! j = Some jb →
  job_operation_idx st !! j = Some k →
  operations jb !! k = Some op →
  Z.of_nat m ∈ eligible_machines op →
  processing_times op !! Z.of_nat m = Some d →
  machine_available st !! m = Some avail →
  job_completion st !! j = Some ready →
  ∃ b1, consider b j (Z.of_nat m) d (Z.max avail ready) = Some b1
        ∧ candidate instance st b1.
Proof.
  intros Hb Hjb Hk Hop Hm Hd Ha Hr.
  assert (Hnew : candidate instance st
            {| best_processing_time := d; best_start_time := Z.max avail ready;
               best_job := j; best_machine := Z.of_nat m;
               best_completion_time := Z.max avail ready + d |}).
  { exists m, jb, k, op, avail, ready. cbn. done. }
  unfold consider. destruct b as [b0|]; [|eauto].
  destruct (_ || _); eauto.
Qed.

Lemma py_pos_in_range (n : nat) (m : nat) :
  (m < n)%nat → py_pos n (Z.of_nat m) = Some m.
Proof.
  intros Hm. unfold py_pos. rewrite bool_decide_eq_true_2 by lia.
  by rewrite Nat2Z.id.
Qed.

(** The scan of the eligible machines of the next operation of a job. *)
Lemma scan_machines_spec (st : state) (j : nat) (jb : Job) (k : nat) (op : Operation)
    (ms : list Z) (b : option best) :
  wf instance st →
  jobs instance !! j = Some jb →
  job_operation_idx st !! j = Some k →
  operations jb !! k = Some op →
  ms ⊆ eligible_machines op →
  (∀ b0, b = Some b0 → candidate instance st b0) →
  ∃ b', scan_machines st j op ms b = Returns b'
        ∧ (∀ b0, b' = Some b0 → candidate instance st b0)
        ∧ (is_Some b ∨ ms ≠ [] → is_Some b').
Proof.
  intros Hwf Hjb Hk Hop. revert b.
  induction ms as [|mz ms IH]; intros b Hsub Hb.
  - exists b. split; [done|]. split; [done|]. intros [?|?]; done.
  - assert (Hin : mz ∈ eligible_machines op) by (apply Hsub; left).
    destruct (valid_instance_op _ _ _ _ _ Hvalid Hjb Hop) as (_ & _ & Hms).
    destruct (Hms mz Hin) as [Hrange (d & Hd & Hpos)].
    assert (Hmz : mz = Z.of_nat (Z.to_nat mz)) by lia.
    set (m := Z.to_nat mz) in *. rewrite Hmz in *.
    destruct (lookup_lt_is_Some_2 (machine_available st) m) as [avail Ha].
    { rewrite (wf_machines _ _ Hwf). lia. }
    destruct (lookup_lt_is_Some_2 (job_completion st) j) as [ready Hr].
    { rewrite (wf_completion _ _ Hwf), <- (proj2 (valid_instance_jobs _ Hvalid)).
      by eapply lookup_lt_Some. }
    cbn [scan_machines]. unfold dict_get, py_index, py_nth.
    rewrite Hd. cbn. rewrite py_pos_in_range by (rewrite (wf_machines _ _ Hwf); lia).
    rewrite Ha, Hr. cbn.
    destruct (consider_candidate st b j m jb k op d avail ready) as (b1 & Hb1 & Hc1); try done.
    rewrite Hb1.
    destruct (IH (Some b1)) as (b' & Hscan & Hcand & Hsome).
    { intros x Hx. apply Hsub. by right. }
    { intros b0 [= <-]. done. }
    exists b'. split; [done|]. split; [done|]. intros _. apply Hsome. left. eauto.
Qed.

(** The scan of the jobs: it returns a candidate, and one exists as soon as
    a job in the range is unfinished. *)
Lemma scan_jobs_spec (st : state) (js : list nat) (b : option best) :
  wf instance st → Forall (λ j, j < num_jobs instance)%nat js →
  (∀ b0, b = Some b0 → candidate instance st b0) →
  ∃ b', scan_jobs instance st js b = Returns b'
        ∧ (∀ b0, b' = Some b0 → candidate instance st b0)
        ∧ (is_Some b → is_Some b')
        ∧ ((∃ j n jb, j ∈ js ∧ job_operation_idx st !! j = Some n
                      ∧ jobs instance !! j = Some jb ∧ n ≠ length (operations jb))
           → is_Some b').
Proof.
  intros Hwf Hjs. revert b. induction Hjs as [|j js Hj Hjs IH]; intros b Hb.
  - exists b. split; [done|]. split; [done|]. split; [done|].
    intros (j & n & jb & Hin & _). by apply elem_of_nil in Hin.
  - destruct (wf_lookup st j Hwf Hj) as (n & jb & r & Hn & Hjb & Hr & Hle).
    cbn [scan_jobs]. unfold py_nth. rewrite Hn, Hjb. cbn.
    case_bool_decide as Hcmp.
    + destruct (IH b Hb) as (b' & Hscan & Hcand & Hmono & Hex).
      exists b'. split; [done|]. split; [done|]. split; [done|].
      intros (j' & n' & jb' & Hin & Hn' & Hjb' & Hne).
      apply elem_of_cons in Hin as [->|Hin].
      * rewrite Hn in Hn'. rewrite Hjb in Hjb'. simplify_eq. lia.
      * apply Hex. eauto 10.
    + destruct (lookup_lt_is_Some_2 (operations jb) n) as [op Hop]; [lia|].
      rewrite Hop. cbn.
      destruct (scan_machines_spec st j jb n op (eligible_machines op) b)
        as (b1 & Hscan1 & Hcand1 & Hsome1); try done.
      rewrite Hscan1. cbn.
      destruct (IH b1 Hcand1) as (b' & Hscan & Hcand & Hmono & _).
      exists b'. split; [done|]. split; [done|].
      assert (is_Some b').
      { apply Hmono, Hsome1. right.
        by destruct (valid_instance_op _ _ _ _ _ Hvalid Hjb Hop) as (_ & ? & _). }
      done.
Qed.

Lemma commit_candidate (st : state) (b : best) :
  wf instance st → candidate instance st b →
  ∃ st', commit instance st (Some b) = Returns st' ∧ fires instance st st'.
Proof.
  intros Hwf (m & jb & k & op & avail & ready & Hm & Hjb & Hk & Hop & Hin & Hd & Ha & Hr & Hs & Hc).
  unfold commit, py_nth, py_store. rewrite Hjb, Hk. cbn. rewrite Hop. cbn.
  rewrite Hm, py_pos_in_range by (by eapply lookup_lt_Some). cbn.
  eexists. split; [reflexivity|].
  rewrite Hs, Hc.
  pose proof (Fires instance st (best_job b) k m jb op (best_processing_time b) avail ready
                Hjb Hk Hop Hin Hd Ha Hr) as HF.
  exact HF.
Qed.

(** While some job is unfinished, one pass of the loop dispatches one
    operation. *)
Lemma step_fires (st : state) :
  wf instance st →
  all_done instance st (seq 0 (num_jobs instance)) = Returns false →
  ∃ st', step instance st = Returns st' ∧ fires instance st st'.
Proof.
  intros Hwf Hdone.
  assert (Hrange : Forall (λ j, j < num_jobs instance)%nat (seq 0 (num_jobs instance))).
  { apply Forall_forall. intros j Hj. apply elem_of_seq in Hj. lia. }
  destruct (scan_jobs_spec st _ None Hwf Hrange) as (b' & Hscan & Hcand & _ & Hex); [done|].
  destruct (all_done_spec st _ Hwf Hrange) as (d & Hd & Hiff).
  rewrite Hdone in Hd. injection Hd as <-.
  destruct b' as [b0|]; cycle 1.
  { assert (false = true); [|done]. apply Hiff. intros j n jb Hin Hn Hjb.
    destruct (decide (n = length (operations jb))) as [|Hne]; [done|].
    destruct Hex as [? [=]]. eauto 10. }
  unfold step. rewrite Hscan. cbn. apply commit_candidate; auto.
Qed.

End Pass.

(** ** The loop *)

Section Loop.
Import SPT Run.
Context (instance : FSJPInstance) (Hvalid : valid_instance instance = true).

Lemma sum_list_insert_S (l : list nat) (j k : nat) :
  l !! j = Some k → sum_list (<[j := S k]> l) = S (sum_list l).
Proof.
  revert j. induction l as [|x l IH]; intros [|j] Hj; try done.
  - injection Hj as ->. done.
  - change (x + sum_list (<[j := S k]> l) = S (x + sum_list l))%nat.
    rewrite (IH j Hj). lia.
Qed.

Lemma cursor_sum_le (idx : list nat) (js : list Job) :
  Forall2 (λ n jb, n ≤ length (operations jb))%nat idx js →
  (sum_list idx ≤ sum_list ((λ jb, length (operations jb)) <$> js))%nat.
Proof. induction 1; cbn; lia. Qed.

Lemma finished_sum (idx : list nat) (js : list Job) :
  Forall2 (λ n jb, n = length (operations jb)) idx js →
  sum_list idx = sum_list ((λ jb, length (operations jb)) <$> js).
Proof. induction 1; cbn; lia. Qed.

Lemma fires_wf (st st' : state) :
  wf instance st → fires instance st st' → wf instance st'.
Proof.
  intros [Hm Hc Hi] HF. destruct HF as [j k m jb op d avail ready Hjb Hk Hop Hin Hd Ha Hr].
  split; cbn.
  - by rewrite length_insert.
  - by rewrite length_insert.
  - rewrite <- (list_insert_id (jobs instance) j jb Hjb).
    apply Forall2_insert; [done|]. apply lookup_lt_Some in Hop. lia.
Qed.

Lemma fires_cursor_sum (st st' : state) :
  fires instance st st' →
  sum_list (job_operation_idx st') = S (sum_list (job_operation_idx st)).
Proof.
  intros HF. destruct HF as [j k m jb op d avail ready Hjb Hk Hop Hin Hd Ha Hr].
  cbn. by apply sum_list_insert_S.
Qed.

(** With a budget above the number of operations still to dispatch, the loop
    returns; an invariant of the dispatch steps holds of the state it
    returns, in which every job is finished. *)
Lemma loop_returns (Inv : state → Prop) :
  (∀ st st', wf instance st → Inv st → fires instance st st' → Inv st') →
  ∀ (fuel : nat) (st : state),
    wf instance st → Inv st →
    (total_operations instance - sum_list (job_operation_idx st) < fuel)%nat →
    ∃ st', loop fuel instance st = Returns st'
           ∧ wf instance st' ∧ Inv st' ∧ finished instance st'.
Proof.
  intros Hpres. induction fuel as [|fuel IH]; intros st Hwf Hinv Hfuel; [lia|].
  assert (Hrange : Forall (λ j, j < num_jobs instance)%nat (seq 0 (num_jobs instance))).
  { apply Forall_forall. intros j Hj. apply elem_of_seq in Hj. lia. }
  destruct (all_done_spec instance Hvalid st _ Hwf Hrange) as (b & Hb & Hiff).
  cbn [loop]. rewrite Hb. cbn. destruct b.
  - exists st. split; [done|]. split; [done|]. split; [done|].
    apply Forall2_same_length_lookup. split.
    { apply (Forall2_length _ _ _ (wf_cursor _ _ Hwf)). }
    intros j n jb Hn Hjb. apply (proj1 Hiff eq_refl j n jb); try done.
    apply elem_of_seq. apply lookup_lt_Some in Hjb.
    rewrite (proj2 (valid_instance_jobs _ Hvalid)) in Hjb. lia.
  - destruct (step_fires instance Hvalid st Hwf Hb) as (st' & Hstep & HF).
    rewrite Hstep. cbn.
    pose proof (fires_wf _ _ Hwf HF) as Hwf'.
    apply IH; [done|by apply (Hpres st st')|].
    rewrite (fires_cursor_sum _ _ HF).
    pose proof (cursor_sum_le _ _ (wf_cursor _ _ Hwf')) as Hle.
    rewrite (fires_cursor_sum _ _ HF) in Hle. unfold total_operations in *. lia.
Qed.

Lemma init_wf : wf instance (init instance).
Proof.
  destruct (valid_instance_jobs _ Hvalid) as [_ Hlen].
  split; cbn.
  - by rewrite length_replicate.
  - by rewrite length_replicate.
  - apply Forall2_same_length_lookup. split.
    { by rewrite length_replicate. }
    intros j n jb Hn _. apply lookup_replicate in Hn as [-> _]. lia.
Qed.

Lemma init_cursor_sum : sum_list (job_operation_idx (init instance)) = 0%nat.
Proof. cbn. induction (num_jobs instance); [done|]. cbn. done. Qed.

(** *** The schedule invariant *)

Lemma entry_ok_fires (st : state) (j k m : nat) (d avail ready : Z) (l : list Entry)
    (e : Entry) (x : Entry) :
  0 < d →
  job_operation_idx st !! j = Some k →
  machine_available st !! m = Some avail →
  job_completion st !! j = Some ready →
  entry_ok st x →
  entry_ok {| machine_available := <[m := Z.max avail ready + d]> (machine_available st);
              job_operation_idx := <[j := S k]> (job_operation_idx st);
              job_completion := <[j := Z.max avail ready + d]> (job_completion st);
              sched := l |} x.
Proof.
  intros Hd Hk Ha Hr (j0 & k0 & m0 & n0 & s0 & c0 & r0 & a0 & -> & Hn0 & Hlt & Hr0 & Hc0 & Ha0 & Hca & Hsc).
  destruct (decide (j0 = j)) as [->|Hj]; destruct (decide (m0 = m)) as [->|Hm].
  - exists j, k0, m, (S k), s0, c0, (Z.max avail ready + d), (Z.max avail ready + d).
    cbn. rewrite !list_lookup_insert_eq by (by eapply lookup_lt_Some).
    simplify_eq. repeat split; try done; lia.
  - exists j, k0, m0, (S k), s0, c0, (Z.max avail ready + d), a0.
    cbn. rewrite !list_lookup_insert_eq by (by eapply lookup_lt_Some).
    rewrite list_lookup_insert_ne by done.
    simplify_eq. repeat split; try done; lia.
  - exists j0, k0, m, n0, s0, c0, r0, (Z.max avail ready + d).
    cbn. rewrite !list_lookup_insert_eq by (by eapply lookup_lt_Some).
    rewrite !list_lookup_insert_ne by done.
    simplify_eq. repeat split; try done; lia.
  - exists j0, k0, m0, n0, s0, c0, r0, a0.
    cbn. rewrite !list_lookup_insert_ne by done.
    repeat split; try done; lia.
Qed.

Lemma entry_ok_before (st : state) (j k m : nat) (d avail ready : Z) (x : Entry) :
  0 < d →
  job_operation_idx st !! j = Some k →
  machine_available st !! m = Some avail →
  job_completion st !! j = Some ready →
  entry_ok st x →
  before x (mk_entry (Z.of_nat j) (Z.of_nat k) (Z.of_nat m)
              (Z.max avail ready) (Z.max avail ready + d))
  ∧ entry_key x ≠ (Z.of_nat j, Z.of_nat k).
Proof.
  intros Hd Hk Ha Hr (j0 & k0 & m0 & n0 & s0 & c0 & r0 & a0 & -> & Hn0 & Hlt & Hr0 & Hc0 & Ha0 & Hca & Hsc).
  unfold before, entry_key, jid, oid, mid, stime, ctime. cbn. repeat split.
  - apply Nat2Z.inj in H. simplify_eq. lia.
  - apply Nat2Z.inj in H. simplify_eq. lia.
  - apply Nat2Z.inj in H. simplify_eq. lia.
  - apply Nat2Z.inj in H. simplify_eq. lia.
  - intros [= Hj Hk0]. apply Nat2Z.inj in Hj. simplify_eq. lia.
Qed.

Lemma sched_inv_fires (st st' : state) :
  wf instance st → sched_inv st → fires instance st st' → sched_inv st'.
Proof.
  intros Hwf [Hent Hord Hnd Hpre Hcnt] HF.
  destruct HF as [j k m jb op d avail ready Hjb Hk Hop Hin Hd Ha Hr].
  destruct (valid_instance_op _ _ _ _ _ Hvalid Hjb Hop) as (Hid & _ & Hms).
  destruct (Hms _ Hin) as [Hrange (d' & Hd' & Hpos)].
  rewrite Hd in Hd'. injection Hd' as <-. rewrite Hid.
  set (s := Z.max avail ready).
  set (e := mk_entry (Z.of_nat j) (Z.of_nat k) (Z.of_nat m) s (s + d)).
  assert (Hold : ∀ x, x ∈ sched st → before x e ∧ entry_key x ≠ (Z.of_nat j, Z.of_nat k)).
  { intros x Hx. apply (entry_ok_before st j k m d avail ready x); try done.
    by eapply (proj1 (Forall_forall _ _) Hent). }
  split; cbn.
  - apply Forall_app. split.
    + eapply Forall_impl; [exact Hent|]. intros x Hx.
      by apply entry_ok_fires.
    + apply Forall_singleton.
      exists j, k, m, (S k), s, (s + d), (s + d), (s + d). cbn.
      rewrite !list_lookup_insert_eq by (by eapply lookup_lt_Some).
      repeat split; try done; lia.
  - apply StronglySorted_app. split; [|split; [done|]].
    + intros x1 x2 Hx1 Hx2. apply list_elem_of_singleton in Hx2 as ->.
      by apply Hold.
    + repeat constructor.
  - rewrite fmap_app. apply NoDup_app. split; [done|]. split.
    + intros p Hp Hp'. apply list_elem_of_singleton in Hp'. subst p.
      apply list_elem_of_fmap in Hp as (x & Hkey & Hx).
      destruct (Hold x Hx) as [_ Hne]. by rewrite <- Hkey in Hne.
    + apply NoDup_singleton.
  - intros j' k' n' Hn' Hlt. rewrite fmap_app. apply elem_of_app.
    destruct (decide (j' = j)) as [->|Hj].
    + rewrite list_lookup_insert_eq in Hn' by (by eapply lookup_lt_Some).
      injection Hn' as <-.
      destruct (decide (k' = k)) as [->|Hk'].
      * right. cbn. apply list_elem_of_singleton. done.
      * left. apply (Hpre j k' k); [done|lia].
    + rewrite list_lookup_insert_ne in Hn' by done. left. by eapply Hpre.
  - rewrite length_app, Hcnt, (sum_list_insert_S _ _ _ Hk). cbn. lia.
Qed.

Lemma sched_inv_init : sched_inv (init instance).
Proof.
  split; cbn.
  - constructor.
  - constructor.
  - constructor.
  - intros j k n Hn Hlt. apply lookup_replicate in Hn as [-> _]. lia.
  - symmetry. apply init_cursor_sum.
Qed.

End Loop.

(** ** The validator on well-formed entries *)

Section Validator.
Import Validate.

Lemma has_key_fields (e : Entry) :
  has_key e = true → e_job_id e = Some (jid e) ∧ e_operation_id e = Some (oid e).
Proof.
  unfold has_key, jid, oid. rewrite andb_true_iff, !bool_decide_eq_true.
  intros [[j Hj] [o Ho]]. by rewrite Hj, Ho.
Qed.

Lemma full_entry_fields (e : Entry) :
  full_entry e = true →
  has_key e = true ∧ e_machine e = Some (mid e)
  ∧ e_start_time e = Some (stime e) ∧ e_completion_time e = Some (ctime e).
Proof.
  unfold full_entry, mid, stime, ctime. rewrite !andb_true_iff, !bool_decide_eq_true.
  intros [[[Hk [m Hm]] [s Hs]] [c Hc]]. by rewrite Hm, Hs, Hc.
Qed.

Lemma collect_keys (l : list Entry) (S : gset (Z * Z)) :
  Forall (λ e, has_key e = true) l →
  collect l S = Returns (list_to_set (entry_key <$> l) ∪ S).
Proof.
  intros Hl. revert S. induction Hl as [|e l He Hl IH]; intros S.
  - cbn. by rewrite (left_id_L ∅ (∪)).
  - destruct (has_key_fields e He) as [Hj Ho].
    cbn [collect]. rewrite Hj, Ho. cbn. rewrite IH. f_equal.
    unfold entry_key. rewrite (assoc_L (∪)).
    by rewrite (comm_L (∪) (list_to_set _) {[ _ ]}).
Qed.

Lemma first_missing_none (S : gset (Z * Z)) (j : nat) (ks : list nat) :
  (∀ k, k ∈ ks → (Z.of_nat j, Z.of_nat k) ∈ S) → first_missing S j ks = None.
Proof.
  induction ks as [|k ks IH]; intros Hall; [done|].
  cbn. rewrite bool_decide_eq_true_2 by (apply Hall; left).
  apply IH. intros k' Hk'. apply Hall. by right.
Qed.

Lemma completeness_all (S : gset (Z * Z)) (j : nat) (js : list Job) (acc : nat) :
  (∀ p, p ∈ pairs_from j js → p ∈ S) →
  completeness S j js acc = inr (acc + length (pairs_from j js))%nat.
Proof.
  revert j acc. induction js as [|jb js IH]; intros j acc Hall.
  - cbn. f_equal. lia.
  - cbn [completeness pairs_from]. rewrite first_missing_none.
    + rewrite IH.
      * f_equal. rewrite length_app, length_fmap, length_seq. lia.
      * intros p Hp. apply Hall. cbn. apply elem_of_app. by right.
    + intros k Hk. apply Hall. cbn. apply elem_of_app. left.
      apply list_elem_of_fmap. by exists k.
Qed.

Lemma length_pairs_from (j : nat) (js : list Job) :
  length (pairs_from j js) = sum_list ((λ jb, length (operations jb)) <$> js).
Proof.
  revert j. induction js as [|jb js IH]; intros j; [done|].
  cbn. rewrite length_app, length_fmap, length_seq, IH. done.
Qed.

Lemma elem_of_pairs_from (p : Z * Z) (j : nat) (js : list Job) :
  p ∈ pairs_from j js ↔
  ∃ (i k : nat) jb, js !! i = Some jb ∧ (k < length (operations jb))%nat
                    ∧ p = (Z.of_nat (j + i), Z.of_nat k).
Proof.
  revert j. induction js as [|jb js IH]; intros j.
  - cbn. split; [by intros ?%elem_of_nil|]. by intros (i & k & jb & ? & _).
  - cbn [pairs_from]. rewrite elem_of_app, IH, list_elem_of_fmap. split.
    + intros [(k & -> & Hk)|(i & k & jb' & Hi & Hk & ->)].
      * apply elem_of_seq in Hk. exists 0%nat, k, jb. rewrite Nat.add_0_r.
        split; [done|]. split; [lia|done].
      * exists (S i), k, jb'. repeat split; try done. do 2 f_equal. lia.
    + intros ([|i] & k & jb' & Hi & Hk & ->).
      * left. cbn in Hi. injection Hi as <-. exists k. rewrite Nat.add_0_r.
        split; [done|]. apply elem_of_seq. lia.
      * right. exists i, k, jb'. repeat split; try done. do 2 f_equal. lia.
Qed.

Lemma NoDup_pairs_from (j : nat) (js : list Job) : NoDup (pairs_from j js).
Proof.
  revert j. induction js as [|jb js IH]; intros j; [constructor|].
  cbn [pairs_from]. apply NoDup_app. split; [|split; [|apply IH]].
  - apply NoDup_fmap_2; [|apply NoDup_seq]. intros a b [= H]. lia.
  - intros p Hp Hp'. apply list_elem_of_fmap in Hp as (k & -> & _).
    apply elem_of_pairs_from in Hp' as (i & k' & jb' & _ & _ & [= H _]). lia.
Qed.

Section Keyed.
Context (key : string) (get : Entry → option Z).

Lemma select_filter (v : Z) (l : list Entry) :
  Forall (λ e, is_Some (get e)) l →
  select key get v l = Returns (filter (λ e, field_value get e = v) l).
Proof.
  induction 1 as [|e l [x He] Hl IH]; [done|].
  assert (Hv : field_value get e = x) by (unfold field_value; by rewrite He).
  rewrite filter_cons, Hv. cbn [select]. rewrite He, IH. cbn.
  case_bool_decide; case_decide; done.
Qed.

Lemma decorate_values (l : list Entry) :
  Forall (λ e, is_Some (get e)) l →
  decorate key get l = Returns ((λ e, (field_value get e, e)) <$> l).
Proof.
  induction 1 as [|e l [x He] Hl IH]; [done|].
  assert (Hv : field_value get e = x) by (unfold field_value; by rewrite He).
  cbn [decorate]. rewrite He, IH. cbn. by rewrite Hv.
Qed.

(** Sorting a list that is already in order leaves it as it is. *)
Lemma sort_by_sorted (l : list Entry) :
  Forall (λ e, is_Some (get e)) l →
  StronglySorted (λ a b, field_value get a ≤ field_value get b) l →
  sort_by key get l = Returns l.
Proof.
  intros Hl Hs. unfold sort_by. rewrite decorate_values by done. cbn. f_equal.
  assert (Hid : stable_sort ((λ e, (field_value get e, e)) <$> l)
                = (λ e, (field_value get e, e)) <$> l).
  { clear Hl. induction Hs as [|a l Hs IH Ha]; [done|].
    cbn. unfold stable_sort in IH. rewrite IH.
    destruct l as [|b l]; [done|]. cbn.
    rewrite bool_decide_eq_true_2; [done|].
    by apply Forall_cons in Ha as [? _]. }
  rewrite Hid, <- list_fmap_compose. apply list_fmap_id.
Qed.

Lemma insert_sorted_perm (x : Z * Entry) (l : list (Z * Entry)) :
  insert_sorted x l ≡ₚ x :: l.
Proof.
  induction l as [|y l IH]; [done|]. cbn. case_bool_decide; [done|].
  rewrite IH. apply Permutation_swap.
Qed.

Lemma stable_sort_perm (l : list (Z * Entry)) : stable_sort l ≡ₚ l.
Proof.
  induction l as [|x l IH]; [done|]. cbn. rewrite insert_sorted_perm.
  unfold stable_sort in IH. by rewrite IH.
Qed.


End Keyed.

Lemma first_overlap_sorted (l : list Entry) :
  Forall (λ e, full_entry e = true) l →
  StronglySorted (λ a b, ctime a ≤ stime b) l →
  first_overlap l = Returns None.
Proof.
  intros Hl Hs. induction Hs as [|a l Hs IH Ha]; [done|].
  apply Forall_cons in Hl as [Hfa Hl].
  destruct l as [|b l]; [done|].
  apply Forall_cons in Ha as [Hab _].
  pose proof Hl as Hl'. apply Forall_cons in Hl' as [Hfb _].
  destruct (full_entry_fields a Hfa) as (_ & _ & _ & Hc).
  destruct (full_entry_fields b Hfb) as (_ & _ & Hst & _).
  cbn [first_overlap]. rewrite Hc, Hst. cbn.
  rewrite bool_decide_eq_false_2 by lia. by apply IH.
Qed.


Lemma StronglySorted_filter {A} (R : A → A → Prop) (P : A → Prop)
    `{!∀ x, Decision (P x)} (l : list A) :
  StronglySorted R l → StronglySorted R (filter P l).
Proof.
  induction 1 as [|a l Hs IH Ha]; [constructor|].
  rewrite filter_cons. case_decide; [|done].
  constructor; [done|]. apply Forall_forall. intros x Hx.
  apply list_elem_of_filter in Hx as [_ Hx].
  by eapply (proj1 (Forall_forall _ _) Ha).
Qed.

Lemma StronglySorted_weaken {A} (R R' : A → A → Prop) (P : A → Prop) (l : list A) :
  (∀ a b, P a → P b → R a b → R' a b) →
  Forall P l → StronglySorted R l → StronglySorted R' l.
Proof.
  intros HR Hl Hs. induction Hs as [|a l Hs IH Ha]; [constructor|].
  apply Forall_cons in Hl as [Hpa Hl].
  constructor; [by apply IH|].
  apply Forall_forall. intros x Hx.
  apply HR; [done| |].
  - by eapply (proj1 (Forall_forall _ _) Hl).
  - by eapply (proj1 (Forall_forall _ _) Ha).
Qed.

Lemma Forall_full_filter (P : Entry → Prop) `{!∀ x, Decision (P x)} (l : list Entry) :
  Forall (λ e, full_entry e = true) l →
  Forall (λ e, full_entry e = true) (filter P l).
Proof.
  rewrite !Forall_forall. intros Hl x Hx. apply list_elem_of_filter in Hx as [_ Hx]. auto.
Qed.

Lemma full_is_Some (l : list Entry) :
  Forall (λ e, full_entry e = true) l →
  Forall (λ e, is_Some (e_job_id e)) l ∧ Forall (λ e, is_Some (e_operation_id e)) l
  ∧ Forall (λ e, is_Some (e_machine e)) l ∧ Forall (λ e, is_Some (e_start_time e)) l.
Proof.
  intros Hl. repeat split; (eapply Forall_impl; [exact Hl|]); intros e He;
    destruct (full_entry_fields e He) as (Hk & Hm & Hs & Hc);
    destruct (has_key_fields e Hk) as [Hj Ho]; eauto.
Qed.

(** A schedule in the order the heuristic builds it passes the precedence
    check and the machine check. *)
Lemma check_precedence_ordered (sch : list Entry) (js : list nat) :
  Forall (λ e, full_entry e = true) sch →
  StronglySorted Run.before sch →
  check_precedence sch js = Returns None.
Proof.
  intros Hfull Hord. induction js as [|j js IH]; [done|].
  destruct (full_is_Some sch Hfull) as (Hj & _).
  cbn [check_precedence]. rewrite (select_filter _ _ _ _ Hj). cbn.
  set (job_ops := filter _ sch).
  assert (Hfull' : Forall (λ e, full_entry e = true) job_ops)
    by (by apply Forall_full_filter).
  assert (Hsame : Forall (λ e, jid e = Z.of_nat j) job_ops).
  { apply Forall_forall. intros x Hx. by apply list_elem_of_filter in Hx as [? _]. }
  assert (Hord' : StronglySorted Run.before job_ops) by (by apply StronglySorted_filter).
  destruct (full_is_Some job_ops Hfull') as (_ & Ho & _).
  rewrite sort_by_sorted; [|done|].
  - cbn. rewrite first_overlap_sorted; [done|done|].
    eapply StronglySorted_weaken; [|exact Hsame|exact Hord'].
    intros a b Ha Hb [Hjob _]. apply Hjob. unfold jid in *. congruence.
  - eapply StronglySorted_weaken; [|exact Hsame|exact Hord'].
    intros a b Ha Hb [Hjob _]. apply Hjob. unfold jid in *. congruence.
Qed.

Lemma check_machines_ordered (sch : list Entry) (ms : list nat) :
  Forall (λ e, full_entry e = true) sch →
  StronglySorted Run.before sch →
  check_machines sch ms = Returns None.
Proof.
  intros Hfull Hord. induction ms as [|m ms IH]; [done|].
  destruct (full_is_Some sch Hfull) as (_ & _ & Hm & _).
  cbn [check_machines]. rewrite (select_filter _ _ _ _ Hm). cbn.
  set (machine_ops := filter _ sch).
  assert (Hfull' : Forall (λ e, full_entry e = true) machine_ops)
    by (by apply Forall_full_filter).
  assert (Hsame : Forall (λ e, mid e = Z.of_nat m) machine_ops).
  { apply Forall_forall. intros x Hx. by apply list_elem_of_filter in Hx as [? _]. }
  assert (Hord' : StronglySorted Run.before machine_ops) by (by apply StronglySorted_filter).
  destruct (full_is_Some machine_ops Hfull') as (_ & _ & _ & Hs).
  rewrite sort_by_sorted; [|done|].
  - cbn. rewrite first_overlap_sorted; [done|done|].
    eapply StronglySorted_weaken; [|exact Hsame|exact Hord'].
    intros a b Ha Hb [_ Hmach]. apply Hmach. unfold mid in *. congruence.
  - eapply StronglySorted_weaken; [|exact Hsame|exact Hord'].
    intros a b Ha Hb [_ Hmach]. apply Hmach. unfold mid in *. congruence.
Qed.

End Validator.

(** ** An operation without eligible machine *)

Section NoEligibleMachine.
Import SPT.
Context (instance : FSJPInstance) (j k : nat) (jb : Job) (op : Operation)
        (Hj : (j < num_jobs instance)%nat)
        (Hjb : jobs instance !! j = Some jb)
        (Hop : operations jb !! k = Some op)
        (Hempty : eligible_machines op = []).

(** A candidate always comes from an operation that has an eligible
    machine, whatever the instance. *)
Lemma scan_machines_origin (st : state) (j' : nat) (op' : Operation) (ms : list Z)
    (b b' : option best) (Q : nat → Prop) :
  (ms ≠ [] → Q j') →
  (∀ b0, b = Some b0 → Q (best_job b0)) →
  scan_machines st j' op' ms b = Returns b' →
  ∀ b0, b' = Some b0 → Q (best_job b0).
Proof.
  revert b. induction ms as [|m ms IH]; intros b Hne Hb Hscan.
  - cbn in Hscan. by injection Hscan as <-.
  - cbn [scan_machines] in Hscan.
    destruct (dict_get (processing_times op') m) as [d| |]; try done.
    destruct (py_index (machine_available st) m) as [avail| |]; try done.
    destruct (py_nth (job_completion st) j') as [ready| |]; try done.
    cbn in Hscan. eapply IH; [| |exact Hscan].
    + intros _. by apply Hne.
    + intros b0. unfold consider. destruct b as [b1|].
      * destruct (_ || _); intros [= <-]; [by apply Hne|by apply Hb].
      * intros [= <-]. by apply Hne.
Qed.

Lemma scan_jobs_origin (st : state) (js : list nat) (b b' : option best) :
  let Q := λ j', ∃ jb' n op', jobs instance !! j' = Some jb'
                              ∧ job_operation_idx st !! j' = Some n
                              ∧ operations jb' !! n = Some op'
                              ∧ eligible_machines op' ≠ [] in
  (∀ b0, b = Some b0 → Q (best_job b0)) →
  scan_jobs instance st js b = Returns b' →
  ∀ b0, b' = Some b0 → Q (best_job b0).
Proof.
  intros Q. revert b. induction js as [|j' js IH]; intros b Hb Hscan.
  - cbn in Hscan. by injection Hscan as <-.
  - cbn [scan_jobs] in Hscan. unfold py_nth in Hscan.
    destruct (job_operation_idx st !! j') as [n|] eqn:Hn; [|done].
    destruct (jobs instance !! j') as [jb'|] eqn:Hjb'; [|done].
    cbn in Hscan. case_bool_decide; [by eapply IH|].
    destruct (operations jb' !! n) as [op'|] eqn:Hop'; [|done].
    cbn in Hscan.
    destruct (scan_machines st j' op' (eligible_machines op') b) as [b1| |] eqn:Hms;
      try done.
    cbn in Hscan. eapply IH; [|exact Hscan].
    eapply (scan_machines_origin st j' op' _ b b1 Q); [|exact Hb|exact Hms].
    intros Hne. exists jb', n, op'. done.
Qed.

(** The cursor of job [j] never passes operation [k]. *)
Lemma step_blocked (st st' : state) :
  (∃ n, job_operation_idx st !! j = Some n ∧ (n ≤ k)%nat) →
  step instance st = Returns st' →
  ∃ n, job_operation_idx st' !! j = Some n ∧ (n ≤ k)%nat.
Proof.
  intros (n & Hn & Hle) Hstep. unfold step in Hstep.
  destruct (scan_jobs instance st (seq 0 (num_jobs instance)) None) as [b| |] eqn:Hscan;
    try done.
  cbn in Hstep.
  pose proof (scan_jobs_origin st (seq 0 (num_jobs instance)) None b) as Horigin.
  cbn zeta in Horigin. specialize (Horigin ltac:(done) Hscan).
  destruct b as [b|]; cbn in Hstep.
  - destruct (Horigin b eq_refl) as (jb' & n' & op' & Hjb' & Hn' & Hop' & Hne).
    unfold py_nth, py_store in Hstep. rewrite Hjb', Hn' in Hstep. cbn in Hstep.
    rewrite Hop' in Hstep. cbn in Hstep.
    destruct (py_pos _ _); [|done]. cbn in Hstep. injection Hstep as <-. cbn.
    destruct (decide (best_job b = j)) as [Hb|Hb].
    + rewrite Hb in *. rewrite Hjb in Hjb'. injection Hjb' as <-.
      rewrite Hn in Hn'. injection Hn' as <-.
      exists (S n). rewrite list_lookup_insert_eq by (by eapply lookup_lt_Some).
      split; [done|].
      destruct (decide (n = k)) as [->|]; [|lia].
      rewrite Hop in Hop'. injection Hop' as <-. done.
    + exists n. by rewrite list_lookup_insert_ne.
  - injection Hstep as <-. eauto.
Qed.

Lemma all_done_blocked (st : state) (js : list nat) :
  j ∈ js →
  (∃ n, job_operation_idx st !! j = Some n ∧ (n ≤ k)%nat) →
  all_done instance st js ≠ Returns true.
Proof.
  intros Hin (n & Hn & Hle). induction js as [|j' js IH]; [by apply elem_of_nil in Hin|].
  cbn [all_done]. unfold py_nth.
  destruct (job_operation_idx st !! j') as [n'|] eqn:Hn'; [|done].
  destruct (jobs instance !! j') as [jb'|] eqn:Hjb'; [|done].
  cbn. case_bool_decide as Hcmp; [|done].
  apply elem_of_cons in Hin as [->|Hin]; [|by apply IH].
  rewrite Hn in Hn'. injection Hn' as <-. rewrite Hjb in Hjb'. injection Hjb' as <-.
  apply lookup_lt_Some in Hop. lia.
Qed.

Lemma loop_blocked (fuel : nat) (st st' : state) :
  (∃ n, job_operation_idx st !! j = Some n ∧ (n ≤ k)%nat) →
  loop fuel instance st ≠ Returns st'.
Proof.
  revert st. induction fuel as [|fuel IH]; intros st Hinv; [done|].
  cbn [loop].
  destruct (all_done instance st (seq 0 (num_jobs instance))) as [[|]| |] eqn:Hdone;
    try done.
  - exfalso. eapply all_done_blocked; [|exact Hinv|exact Hdone].
    apply elem_of_seq. lia.
  - cbn. destruct (step instance st) as [st1| |] eqn:Hstep; try done.
    cbn. apply IH. by eapply step_blocked.
Qed.

(** Whenever an operation of a job in range has no eligible machine, the
    heuristic does not return, whatever budget it is given: it runs forever,
    unless some other defect of the instance makes it raise [IndexError],
    [KeyError] or [ValueError] first. *)
Lemma empty_eligible_never_returns (fuel : nat) (r : Solution) :
  shortest_processing_time fuel instance ≠ Returns r.
Proof.
  unfold shortest_processing_time.
  destruct (loop fuel instance (init instance)) as [st| |] eqn:Hloop; try done.
  exfalso. eapply loop_blocked; [|exact Hloop].
  exists 0%nat. split; [|lia]. cbn. by apply lookup_replicate_2.
Qed.

End NoEligibleMachine.

(** ** The heuristic on valid instances *)

Section Heuristic.
Import SPT Run.
Context (instance : FSJPInstance) (Hvalid : valid_instance instance = true).

Lemma entry_ok_full (st : state) (e : Entry) : entry_ok st e → full_entry e = true.
Proof. intros (j & k & m & n & s & c & r & a & -> & _). reflexivity. Qed.

(** The heuristic returns, with the schedule of a finished state that meets
    the schedule invariant. *)
Lemma spt_returns (fuel : nat) :
  (total_operations instance < fuel)%nat →
  ∃ st m,
    shortest_processing_time fuel instance =
      Returns {| makespan := Finite m; schedule := Some (sched st);
                 algorithm_type := Some "shortest_processing_time";
                 error := None; execution_time := None |}
    ∧ wf instance st ∧ sched_inv st ∧ finished instance st.
Proof.
  intros Hfuel.
  destruct (loop_returns instance Hvalid sched_inv (sched_inv_fires instance Hvalid)
              fuel (init instance) (init_wf instance Hvalid) (sched_inv_init instance))
    as (st & Hloop & Hwf & Hinv & Hfin).
  { rewrite init_cursor_sum. lia. }
  unfold shortest_processing_time. rewrite Hloop. cbn.
  destruct (job_completion st) as [|r rs] eqn:Hjc.
  - pose proof (wf_completion _ _ Hwf) as Hlen. rewrite Hjc in Hlen.
    destruct (valid_instance_jobs _ Hvalid) as [Hpos _]. cbn in Hlen. lia.
  - cbn. by eexists st, _.
Qed.

Lemma finished_keys (st : state) :
  wf instance st → sched_inv st → finished instance st →
  ∀ p, p ∈ entry_key <$> sched st ↔ p ∈ instance_pairs instance.
Proof.
  intros Hwf Hinv Hfin p. unfold instance_pairs. rewrite elem_of_pairs_from. split.
  - intros (e & -> & He)%list_elem_of_fmap.
    pose proof (proj1 (Forall_forall _ _) (inv_entries _ Hinv) e He)
      as (j & k & m & n & s & c & r & a & -> & Hn & Hlt & _).
    destruct (Forall2_lookup_l _ _ _ _ _ Hfin Hn) as (jb & Hjb & ->).
    exists j, k, jb. done.
  - intros (j & k & jb & Hjb & Hlt & ->).
    destruct (Forall2_lookup_r _ _ _ _ _ Hfin Hjb) as (n & Hn & ->).
    by apply (inv_present _ Hinv j k (length (operations jb))).
Qed.

Lemma finished_count (st : state) :
  sched_inv st → finished instance st →
  length (sched st) = total_operations instance.
Proof.
  intros Hinv Hfin. rewrite (inv_count _ Hinv). by apply finished_sum.
Qed.

End Heuristic.

(** C2. On an instance that meets the invariants the heuristic returns a
    schedule whose entries all carry a key, no key twice, whose keys are
    exactly the [(job_id, operation_id)] pairs of the instance, and which has
    as many entries as the instance has operations. *)
Theorem C2_schedule_complete (instance : FSJPInstance) (fuel : nat) :
  valid_instance instance = true →
  (total_operations instance < fuel)%nat →
  ∃ r sch,
    shortest_processing_time fuel instance = Returns r
    ∧ schedule r = Some sch
    ∧ Forall (λ e, has_key e = true) sch
    ∧ NoDup (entry_key <$> sch)
    ∧ (∀ p, p ∈ entry_key <$> sch ↔ p ∈ instance_pairs instance)
    ∧ length sch = total_operations instance.
Proof.
  intros Hvalid Hfuel.
  destruct (spt_returns instance Hvalid fuel Hfuel) as (st & m & Hrun & Hwf & Hinv & Hfin).
  eexists _, (SPT.sched st). split; [exact Hrun|]. split; [done|]. split; [|split; [|split]].
  - eapply Forall_impl; [exact (Run.inv_entries _ Hinv)|].
    intros e He. apply entry_ok_full in He.
    unfold full_entry in He. rewrite !andb_true_iff in He. tauto.
  - exact (Run.inv_nodup _ Hinv).
  - by apply finished_keys.
  - by apply finished_count.
Qed.

Lemma C2_schedule_complete_witness :
  ∃ r sch,
    shortest_processing_time 3 Examples.two_jobs = Returns r
    ∧ schedule r = Some sch
    ∧ Forall (λ e, has_key e = true) sch
    ∧ NoDup (entry_key <$> sch)
    ∧ (∀ p, p ∈ entry_key <$> sch ↔ p ∈ instance_pairs Examples.two_jobs)
    ∧ length sch = total_operations Examples.two_jobs.
Proof.
  apply (C2_schedule_complete Examples.two_jobs 3).
  - reflexivity.
  - vm_compute. lia.
Defined.

(** C1. On an instance that meets the invariants the heuristic returns, and
    the validator answers [(True, None)] on what it returns. *)
Theorem C1_validator_accepts_heuristic (instance : FSJPInstance) (fuel : nat) :
  valid_instance instance = true →
  (total_operations instance < fuel)%nat →
  ∃ r,
    shortest_processing_time fuel instance = Returns r
    ∧ validate_solution instance r = Returns (true, None).
Proof.
  intros Hvalid Hfuel.
  destruct (spt_returns instance Hvalid fuel Hfuel) as (st & m & Hrun & Hwf & Hinv & Hfin).
  eexists. split; [exact Hrun|].
  assert (Hfull : Forall (λ e, full_entry e = true) (SPT.sched st)).
  { eapply Forall_impl; [exact (Run.inv_entries _ Hinv)|]. apply entry_ok_full. }
  assert (Hkeys : Forall (λ e, has_key e = true) (SPT.sched st)).
  { eapply Forall_impl; [exact Hfull|]. intros e He.
    unfold full_entry in He. rewrite !andb_true_iff in He. tauto. }
  unfold validate_solution. cbn [schedule default].
  rewrite (collect_keys _ _ Hkeys). cbn.
  rewrite completeness_all; cycle 1.
  { intros p Hp. apply elem_of_union. left. apply elem_of_list_to_set.
    by apply (finished_keys instance st). }
  rewrite bool_decide_eq_false_2; cycle 1.
  { intros Hne. apply Hne. rewrite (right_id_L ∅ (∪)).
    rewrite size_list_to_set by exact (Run.inv_nodup _ Hinv).
    rewrite length_fmap, length_pairs_from.
    by apply finished_count. }
  rewrite check_precedence_ordered; [|done|exact (Run.inv_order _ Hinv)]. cbn.
  rewrite check_machines_ordered; [|done|exact (Run.inv_order _ Hinv)]. done.
Qed.

Lemma C1_validator_accepts_heuristic_witness :
  ∃ r,
    shortest_processing_time 4 (add_job Examples.anomaly Examples.short_job) = Returns r
    ∧ validate_solution (add_job Examples.anomaly Examples.short_job) r = Returns (true, None).
Proof.
  apply (C1_validator_accepts_heuristic (add_job Examples.anomaly Examples.short_job) 4).
  - reflexivity.
  - vm_compute. lia.
Defined.

(** ** What the validator reports *)

(** C10. When every pair of the instance has an entry and some entry carries
    a key that is not a pair of the instance, the validator answers
    [(False, "Schedule contains duplicate operations")]: the foreign entry is
    rejected under the duplicate-operations reason. *)
Theorem C10_foreign_entry_reported_as_duplicate
    (instance : FSJPInstance) (solution : Solution) (sch : list Entry) (extra : Entry) :
  schedule solution = Some sch →
  Forall (λ e, has_key e = true) sch →
  instance_pairs instance ⊆ entry_key <$> sch →
  extra ∈ sch →
  entry_key extra ∉ instance_pairs instance →
  validate_solution instance solution = Returns (false, Some duplicate_operations).
Proof.
  intros Hsch Hkeys Hall Hextra Hforeign.
  unfold validate_solution. rewrite Hsch. cbn [default].
  rewrite (collect_keys _ _ Hkeys). cbn.
  rewrite (right_id_L ∅ (∪)).
  rewrite completeness_all; cycle 1.
  { intros p Hp. apply elem_of_list_to_set. by apply Hall. }
  rewrite bool_decide_eq_true_2; [done|].
  fold (instance_pairs instance).
  rewrite <- (size_list_to_set (C := gset (Z * Z)) (instance_pairs instance))
    by apply NoDup_pairs_from.
  assert (Hlt : (size (list_to_set (instance_pairs instance) : gset (Z * Z))
                 < size (list_to_set (entry_key <$> sch) : gset (Z * Z)))%nat).
  { apply subset_size. split.
    - intros p Hp. apply elem_of_list_to_set in Hp. apply elem_of_list_to_set. by apply Hall.
    - intros Hsub. apply Hforeign. apply (elem_of_list_to_set (C := gset (Z * Z))).
      apply Hsub. apply elem_of_list_to_set. apply list_elem_of_fmap. by exists extra. }
  cbn. lia.
Qed.

Lemma C10_foreign_entry_reported_as_duplicate_witness :
  validate_solution Examples.one_job
    (solution_of [mk_entry 0 0 0 0 5; mk_entry 7 0 0 5 10])
  = Returns (false, Some duplicate_operations).
Proof.
  apply (C10_foreign_entry_reported_as_duplicate Examples.one_job _
           [mk_entry 0 0 0 0 5; mk_entry 7 0 0 5 10] (mk_entry 7 0 0 5 10)).
  - reflexivity.
  - repeat constructor.
  - intros p Hp. vm_compute in Hp. apply list_elem_of_singleton in Hp as ->. left.
  - right. left.
  - vm_compute. intros Hin. apply list_elem_of_singleton in Hin. discriminate Hin.
Defined.

(** *** A repeated pair is never what the duplicate check sees *)

Section Blind.
Import Validate.

Lemma first_missing_message (S : gset (Z * Z)) (j : nat) (ks : list nat) (msg : string) :
  first_missing S j ks = Some msg → msg ≠ duplicate_operations.
Proof.
  induction ks as [|k ks IH]; [done|]. cbn. case_bool_decide; [done|].
  intros [= <-]. done.
Qed.

Lemma first_missing_present (S : gset (Z * Z)) (j : nat) (ks : list nat) :
  first_missing S j ks = None → ∀ k, k ∈ ks → (Z.of_nat j, Z.of_nat k) ∈ S.
Proof.
  induction ks as [|k ks IH]; intros Hnone k' Hk'; [by apply elem_of_nil in Hk'|].
  cbn in Hnone. case_bool_decide; [|done].
  apply elem_of_cons in Hk' as [->|Hk']; [done|by apply IH].
Qed.

Lemma completeness_message (S : gset (Z * Z)) (j : nat) (js : list Job) (acc : nat)
    (msg : string) :
  completeness S j js acc = inl msg → msg ≠ duplicate_operations.
Proof.
  revert j acc. induction js as [|jb js IH]; intros j acc; [done|].
  cbn [completeness].
  destruct (first_missing S j _) as [m|] eqn:Hfm; [|by apply IH].
  intros [= <-]. by eapply first_missing_message.
Qed.

Lemma completeness_total (S : gset (Z * Z)) (j : nat) (js : list Job) (acc t : nat) :
  completeness S j js acc = inr t →
  t = (acc + length (pairs_from j js))%nat ∧ ∀ p, p ∈ pairs_from j js → p ∈ S.
Proof.
  revert j acc. induction js as [|jb js IH]; intros j acc.
  - cbn. intros [= <-]. split; [lia|]. by intros p ?%elem_of_nil.
  - cbn [completeness pairs_from].
    destruct (first_missing S j _) as [m|] eqn:Hfm; [done|].
    intros Hc. apply IH in Hc as [-> Hall]. split.
    + rewrite length_app, length_fmap, length_seq. lia.
    + intros p [Hp|Hp]%elem_of_app; [|by apply Hall].
      apply list_elem_of_fmap in Hp as (k' & -> & Hk').
      by eapply first_missing_present.
Qed.

Lemma check_precedence_message (sch : list Entry) (js : list nat) (msg : string) :
  check_precedence sch js = Returns (Some msg) → msg ≠ duplicate_operations.
Proof.
  induction js as [|j js IH]; [done|]. cbn [check_precedence].
  destruct (select _ _ _ sch) as [job_ops| |]; try done. cbn.
  destruct (sort_by _ _ job_ops) as [sorted| |]; try done. cbn.
  destruct (first_overlap sorted) as [[cur|]| |]; try done. cbn.
  destruct (field _ _) as [o| |]; try done. cbn. intros [= <-]. done.
Qed.

Lemma check_machines_message (sch : list Entry) (ms : list nat) (msg : string) :
  check_machines sch ms = Returns (Some msg) → msg ≠ duplicate_operations.
Proof.
  induction ms as [|m ms IH]; [done|]. cbn [check_machines].
  destruct (select _ _ _ sch) as [machine_ops| |]; try done. cbn.
  destruct (sort_by _ _ machine_ops) as [sorted| |]; try done. cbn.
  destruct (first_overlap sorted) as [[cur|]| |]; try done. cbn.
  intros [= <-]. done.
Qed.

(** On a schedule whose keys are all pairs of the instance, the validator
    never answers with the duplicate-operations reason, however often a pair
    is repeated. *)
Lemma duplicates_never_reported (instance : FSJPInstance) (solution : Solution)
    (sch : list Entry) :
  schedule solution = Some sch →
  Forall (λ e, has_key e = true) sch →
  entry_key <$> sch ⊆ instance_pairs instance →
  validate_solution instance solution ≠ Returns (false, Some duplicate_operations).
Proof.
  intros Hsch Hkeys Hsub. unfold validate_solution. rewrite Hsch. cbn [default].
  rewrite (collect_keys _ _ Hkeys). cbn. rewrite (right_id_L ∅ (∪)).
  destruct (completeness _ 0 (jobs instance) 0) as [msg|total] eqn:Hc.
  { intros [= ->]. by eapply completeness_message. }
  apply completeness_total in Hc as [-> Hall].
  assert (Hset : (list_to_set (entry_key <$> sch) : gset (Z * Z))
                 = list_to_set (instance_pairs instance)).
  { apply set_eq. intros p. rewrite !elem_of_list_to_set. split; [apply Hsub|].
    intros Hp. apply (elem_of_list_to_set (C := gset (Z * Z))). by apply Hall. }
  rewrite Hset, size_list_to_set by apply NoDup_pairs_from.
  rewrite bool_decide_eq_false_2 by (unfold instance_pairs; cbn; lia).
  destruct (check_precedence sch _) as [[msg|]| |] eqn:Hp; cbn; try done.
  { intros [= ->]. by eapply check_precedence_message. }
  destruct (check_machines sch _) as [[msg|]| |] eqn:Hm; cbn; try done.
  intros [= ->]. by eapply check_machines_message.
Qed.

End Blind.

Section Verdict.
Import Validate.




End Verdict.



(** ** One machine: the makespan is the total work *)

Section SingleMachine.
Import SPT Run.
Context (instance : FSJPInstance) (Hvalid : valid_instance instance = true)
        (Hone : num_machines instance = 1%nat).

Lemma work_snoc (ops : list Operation) (op : Operation) :
  work (ops ++ [op]) = work ops + duration0 op.
Proof. unfold work. induction ops as [|o ops IH]; cbn in *; lia. Qed.

Lemma done_work_insert (idx : list nat) (js : list Job) (j k : nat) (jb : Job)
    (op : Operation) :
  idx !! j = Some k → js !! j = Some jb → operations jb !! k = Some op →
  done_work (<[j := S k]> idx) js = done_work idx js + duration0 op.
Proof.
  revert js j. induction idx as [|n idx IH]; intros [|jb' js] [|j] Hk Hjb Hop; try done.
  - injection Hk as ->. injection Hjb as ->. cbn.
    rewrite (take_S_r _ _ _ Hop), work_snoc. lia.
  - change (work (take n (operations jb')) + done_work (<[j := S k]> idx) js
            = work (take n (operations jb')) + done_work idx js + duration0 op).
    rewrite (IH js j Hk Hjb Hop). lia.
Qed.

Lemma done_work_init (n : nat) (js : list Job) : done_work (replicate n 0%nat) js = 0.
Proof.
  revert js. induction n as [|n IH]; intros [|jb js]; try done.
  cbn. rewrite IH. rewrite take_0. done.
Qed.

Lemma done_work_finished (idx : list nat) (js : list Job) :
  Forall2 (λ n jb, n = length (operations jb)) idx js →
  done_work idx js = foldr (λ jb acc, work (operations jb) + acc) 0 js.
Proof.
  induction 1 as [|n jb idx js -> _ IH]; [done|].
  cbn. rewrite IH, firstn_all. done.
Qed.

Lemma single_machine_op (j k m : nat) (jb : Job) (op : Operation) (d : Z) :
  jobs instance !! j = Some jb → operations jb !! k = Some op →
  Z.of_nat m ∈ eligible_machines op → processing_times op !! Z.of_nat m = Some d →
  m = 0%nat ∧ duration0 op = d ∧ 0 < d.
Proof.
  intros Hjb Hop Hin Hd.
  destruct (valid_instance_op _ _ _ _ _ Hvalid Hjb Hop) as (_ & _ & Hms).
  destruct (Hms _ Hin) as [Hrange (d' & Hd' & Hpos)].
  rewrite Hone in Hrange. assert (m = 0%nat) as -> by lia.
  rewrite Hd in Hd'. injection Hd' as <-.
  unfold duration0. change (Z.of_nat 0) with 0 in Hd. by rewrite Hd.
Qed.

Lemma single_inv_fires (st st' : state) :
  wf instance st → single_inv instance st → fires instance st st' →
  single_inv instance st'.
Proof.
  intros Hwf [Hav Hbound Hreach] HF.
  destruct HF as [j k m jb op d avail ready Hjb Hk Hop Hin Hd Ha Hr].
  destruct (single_machine_op j k m jb op d Hjb Hop Hin Hd) as (-> & Hdur & Hpos).
  set (T := done_work (job_operation_idx st) (jobs instance)) in *.
  rewrite Hav in Ha. injection Ha as <-.
  assert (Hready : ready ≤ T).
  { eapply (proj1 (Forall_forall _ _) Hbound). by eapply list_elem_of_lookup_2. }
  rewrite Z.max_l by done.
  assert (Hwork : done_work (<[j := S k]> (job_operation_idx st)) (jobs instance) = T + d).
  { rewrite (done_work_insert _ _ _ _ _ _ Hk Hjb Hop). by rewrite Hdur. }
  split; cbn; rewrite Hwork.
  - by rewrite Hav.
  - apply Forall_insert; [|lia].
    eapply Forall_impl; [exact Hbound|]. cbn. intros r Hr'. lia.
  - apply list_elem_of_lookup. exists j.
    apply list_lookup_insert_eq. by eapply lookup_lt_Some.
Qed.

Lemma single_inv_init : single_inv instance (init instance).
Proof.
  destruct (valid_instance_jobs _ Hvalid) as [Hpos _].
  split; cbn; rewrite done_work_init.
  - by rewrite Hone.
  - apply Forall_forall. intros r Hr. apply elem_of_replicate in Hr as [-> _]. done.
  - apply elem_of_replicate. split; [done|lia].
Qed.

Lemma foldl_max_reached (T : Z) (l : list Z) (a : Z) :
  Forall (λ r, r ≤ T) l → a ≤ T → a = T ∨ T ∈ l → foldl Z.max a l = T.
Proof.
  intros Hl. revert a. induction Hl as [|x l Hx Hl IH]; intros a Ha Hin.
  - destruct Hin as [->|Hin]; [done|]. by apply elem_of_nil in Hin.
  - cbn. apply IH; [lia|].
    destruct Hin as [->|Hin]; [left; lia|].
    apply elem_of_cons in Hin as [->|Hin]; [left; lia|by right].
Qed.

Lemma py_max_reached (T : Z) (l : list Z) :
  Forall (λ r, r ≤ T) l → T ∈ l → py_max l = Returns T.
Proof.
  intros Hl Hin. destruct l as [|x l]; [by apply elem_of_nil in Hin|].
  apply Forall_cons in Hl as [Hx Hl]. cbn. f_equal.
  apply foldl_max_reached; [done|done|].
  apply elem_of_cons in Hin as [->|Hin]; [by left|by right].
Qed.

(** On one machine the heuristic leaves no idle time: the makespan it
    returns is the sum of the durations of all operations. *)
Lemma single_machine_makespan (fuel : nat) :
  (total_operations instance < fuel)%nat →
  spt_makespan fuel instance = Returns (Finite (total_work instance)).
Proof.
  intros Hfuel.
  destruct (loop_returns instance Hvalid (single_inv instance) single_inv_fires
              fuel (init instance) (init_wf instance Hvalid) single_inv_init)
    as (st & Hloop & Hwf & [Hav Hbound Hreach] & Hfin).
  { rewrite init_cursor_sum. lia. }
  unfold spt_makespan, shortest_processing_time. rewrite Hloop. cbn.
  rewrite (py_max_reached _ _ Hbound Hreach). cbn.
  by rewrite (done_work_finished _ _ Hfin).
Qed.

End SingleMachine.

Lemma work_nonneg (ops : list Operation) :
  Forall (λ op, 0 ≤ Run.duration0 op) ops → 0 ≤ Run.work ops.
Proof. unfold Run.work. induction 1; cbn; lia. Qed.

Lemma total_work_mono (js : list Job) (w : Z) :
  0 ≤ w →
  foldr (λ jb acc, Run.work (operations jb) + acc) 0 js
  ≤ foldr (λ jb acc, Run.work (operations jb) + acc) w js.
Proof. intros Hw. induction js as [|x js IH]; cbn; lia. Qed.

(** C7, as the code has it: on an instance with a single machine, adding a
    job does not decrease the makespan the heuristic returns. *)
Theorem C7_single_machine_monotone (instance : FSJPInstance) (jb : Job) (fuel fuel' : nat) :
  num_machines instance = 1%nat →
  valid_instance instance = true →
  valid_instance (add_job instance jb) = true →
  (total_operations instance < fuel)%nat →
  (total_operations (add_job instance jb) < fuel')%nat →
  ∃ m m',
    spt_makespan fuel instance = Returns (Finite m)
    ∧ spt_makespan fuel' (add_job instance jb) = Returns (Finite m')
    ∧ m ≤ m'.
Proof.
  intros Hone Hvalid Hvalid' Hfuel Hfuel'.
  exists (Run.total_work instance), (Run.total_work (add_job instance jb)).
  split; [by apply single_machine_makespan|].
  split; [by apply single_machine_makespan|].
  unfold Run.total_work. cbn [jobs add_job]. rewrite foldr_app. cbn [foldr].
  assert (Hjb : 0 ≤ Run.work (operations jb)).
  { apply work_nonneg. apply Forall_forall. intros op Hop.
    apply list_elem_of_lookup in Hop as [k Hk].
    assert (Hlast : jobs (add_job instance jb) !! length (jobs instance) = Some jb).
    { cbn. rewrite lookup_app_r by done. by rewrite Nat.sub_diag. }
    destruct (valid_instance_op _ _ _ _ _ Hvalid' Hlast Hk) as (_ & Hne & Hms).
    destruct (eligible_machines op) as [|m ms] eqn:Hel; [done|].
    destruct (Hms m (list_elem_of_here _ _)) as [Hrange (d & Hd & Hpos)].
    cbn in Hrange. rewrite Hone in Hrange. assert (m = 0) as -> by lia.
    unfold Run.duration0. rewrite Hd. cbn. lia. }
  apply total_work_mono. lia.
Qed.

(** The theorem below on [two_jobs] and a third job of duration 7. *)
Lemma C7_single_machine_monotone_witness :
  ∃ m m',
    spt_makespan 3 Examples.two_jobs = Returns (Finite m)
    ∧ spt_makespan 4 (add_job Examples.two_jobs (Examples.single_op_job 2 [0] 7))
      = Returns (Finite m')
    ∧ m ≤ m'.
Proof.
  apply (C7_single_machine_monotone Examples.two_jobs (Examples.single_op_job 2 [0] 7) 3 4).
  - reflexivity.
  - reflexivity.
  - reflexivity.
  - vm_compute. lia.
  - vm_compute. lia.
Defined.

(** * Further properties of the code *)

(** ** What the validator has read when it returns *)

Section ValidatorInversion.
Import Validate.

Lemma field_returns (key : string) (v : option Z) (x : Z) :
  field key v = Returns x → v = Some x.
Proof. destruct v; [by intros [= ->]|done]. Qed.

Lemma collect_inv (l : list Entry) (S0 S : gset (Z * Z)) :
  collect l S0 = Returns S →
  Forall (λ e, has_key e = true) l ∧ S = list_to_set (entry_key <$> l) ∪ S0.
Proof.
  revert S0. induction l as [|e l IH]; intros S0.
  - cbn. intros [= <-]. split; [done|]. by rewrite (left_id_L ∅ (∪)).
  - cbn [collect].
    destruct (field "job_id" (e_job_id e)) as [j| |] eqn:Hj; try done.
    destruct (field "operation_id" (e_operation_id e)) as [o| |] eqn:Ho; try done.
    cbn. intros Hc. apply IH in Hc as [Hl ->].
    apply field_returns in Hj, Ho.
    assert (He : has_key e = true).
    { unfold has_key. rewrite Hj, Ho. done. }
    split; [by constructor|].
    cbn. unfold entry_key, jid, oid. rewrite Hj, Ho. cbn.
    rewrite (assoc_L (∪)). by rewrite (comm_L (∪) (list_to_set _) {[ _ ]}).
Qed.

Lemma first_missing_first (seen : gset (Z * Z)) (j : nat) (ks : list nat) (msg : string) :
  first_missing seen j ks = Some msg →
  ∃ (k : nat) k1 k2,
    ks = k1 ++ k :: k2
    ∧ (∀ k', k' ∈ k1 → (Z.of_nat j, Z.of_nat k') ∈ seen)
    ∧ ((Z.of_nat j, Z.of_nat k) ∉ seen)
    ∧ msg = ("Operation " +:+ pretty k +:+ " of job " +:+ pretty j
             +:+ " is not scheduled").
Proof.
  induction ks as [|k ks IH]; [done|]. cbn. case_bool_decide as Hk.
  - intros Hm. destruct (IH Hm) as (k0 & k1 & k2 & -> & Hall & Hno & ->).
    exists k0, (k :: k1), k2. split; [done|]. split; [|done].
    intros k' [->|Hk']%elem_of_cons; [done|by apply Hall].
  - intros [= <-]. exists k, [], ks. split; [done|]. split; [|done].
    by intros k' ?%elem_of_nil.
Qed.

Lemma completeness_first (seen : gset (Z * Z)) (j0 : nat) (js : list Job) (acc : nat)
    (msg : string) :
  completeness seen j0 js acc = inl msg →
  ∃ (j k : nat) before after,
    pairs_from j0 js = before ++ (Z.of_nat j, Z.of_nat k) :: after
    ∧ (∀ p, p ∈ before → p ∈ seen)
    ∧ ((Z.of_nat j, Z.of_nat k) ∉ seen)
    ∧ msg = ("Operation " +:+ pretty k +:+ " of job " +:+ pretty j
             +:+ " is not scheduled").
Proof.
  revert j0 acc. induction js as [|jb js IH]; intros j0 acc; [done|].
  cbn [completeness pairs_from].
  destruct (first_missing seen j0 _) as [m|] eqn:Hfm.
  - intros [= <-].
    destruct (first_missing_first _ _ _ _ Hfm) as (k & k1 & k2 & Hks & Hall & Hno & ->).
    exists j0, k, ((λ k' : nat, (Z.of_nat j0, Z.of_nat k')) <$> k1),
      (((λ k' : nat, (Z.of_nat j0, Z.of_nat k')) <$> k2) ++ pairs_from (S j0) js).
    split; [|split; [|done]].
    + rewrite Hks, fmap_app, fmap_cons, <- app_assoc. done.
    + intros p (k' & -> & Hk')%list_elem_of_fmap. by apply Hall.
  - intros Hc. destruct (IH _ _ Hc) as (j & k & before & after & Hp & Hall & Hno & ->).
    exists j, k,
      (((λ k' : nat, (Z.of_nat j0, Z.of_nat k')) <$> seq 0 (length (operations jb)))
       ++ before), after.
    split; [|split; [|done]].
    + rewrite Hp, <- app_assoc. done.
    + intros p [Hp'|Hp']%elem_of_app; [|by apply Hall].
      apply list_elem_of_fmap in Hp' as (k' & -> & Hk').
      by eapply first_missing_present.
Qed.

End ValidatorInversion.

(** X1. When the validator accepts a schedule, every entry carries a key and
    the keys of the schedule are exactly the pairs of the instance: nothing
    is missing and nothing is foreign. *)
Theorem accepted_schedule_keys (instance : FSJPInstance) (solution : Solution) :
  validate_solution instance solution = Returns (true, None) →
  Forall (λ e, has_key e = true) (default [] (schedule solution))
  ∧ ∀ p, p ∈ entry_key <$> default [] (schedule solution) ↔ p ∈ instance_pairs instance.
Proof.
  unfold validate_solution. set (sch := default [] (schedule solution)).
  destruct (Validate.collect sch ∅) as [S| |] eqn:Hc; try done. cbn.
  apply collect_inv in Hc as [Hkeys ->]. rewrite (right_id_L ∅ (∪)).
  destruct (Validate.completeness _ 0 (jobs instance) 0) as [msg|total] eqn:Hcomp; [done|].
  apply completeness_total in Hcomp as [-> Hall].
  case_bool_decide as Hsize; [done|]. intros _. split; [done|].
  assert (Hsub : (list_to_set (instance_pairs instance) : gset (Z * Z))
                 ⊆ list_to_set (entry_key <$> sch)).
  { intros p Hp. apply elem_of_list_to_set in Hp. by apply Hall. }
  assert (Heq : (list_to_set (instance_pairs instance) : gset (Z * Z))
                = list_to_set (entry_key <$> sch)).
  { apply set_subseteq_size_eq; [done|].
    rewrite (size_list_to_set (instance_pairs instance)) by apply NoDup_pairs_from.
    rewrite Hsize. unfold instance_pairs. cbn. lia. }
  intros p. rewrite <- (elem_of_list_to_set (C := gset (Z * Z)) p (entry_key <$> sch)).
  rewrite <- Heq. by rewrite elem_of_list_to_set.
Qed.

(** The theorem on [two_jobs] and the schedule the heuristic builds for it. *)
Lemma accepted_schedule_keys_witness :
  Forall (λ e, has_key e = true) [mk_entry 1 0 0 0 5; mk_entry 0 0 0 5 15]
  ∧ ∀ p, p ∈ entry_key <$> [mk_entry 1 0 0 0 5; mk_entry 0 0 0 5 15]
         ↔ p ∈ instance_pairs two_jobs.
Proof.
  apply (accepted_schedule_keys two_jobs
           (solution_of [mk_entry 1 0 0 0 5; mk_entry 0 0 0 5 15])).
  vm_compute. reflexivity.
Defined.

(** X2. When some pair of the instance has no entry, the validator answers
    [(False, "Operation k of job j is not scheduled")], where [(j, k)] is the
    first pair of the instance, in job then operation order, without an
    entry. *)
Theorem missing_operation_reported (instance : FSJPInstance) (solution : Solution)
    (p : Z * Z) :
  Forall (λ e, has_key e = true) (default [] (schedule solution)) →
  p ∈ instance_pairs instance →
  p ∉ entry_key <$> default [] (schedule solution) →
  ∃ (j k : nat) before after,
    instance_pairs instance = before ++ (Z.of_nat j, Z.of_nat k) :: after
    ∧ before ⊆ entry_key <$> default [] (schedule solution)
    ∧ ((Z.of_nat j, Z.of_nat k) ∉ entry_key <$> default [] (schedule solution))
    ∧ validate_solution instance solution =
        Returns (false, Some ("Operation " +:+ pretty k +:+ " of job " +:+ pretty j
                              +:+ " is not scheduled")).
Proof.
  intros Hkeys Hp Hno. unfold validate_solution.
  set (sch := default [] (schedule solution)) in *.
  rewrite (collect_keys _ _ Hkeys). cbn. rewrite (right_id_L ∅ (∪)).
  destruct (Validate.completeness _ 0 (jobs instance) 0) as [msg|total] eqn:Hcomp.
  - destruct (completeness_first _ _ _ _ _ Hcomp)
      as (j & k & before & after & Hpairs & Hall & Hmiss & ->).
    exists j, k, before, after. split; [done|]. split; [|split; [|done]].
    + intros q Hq. apply (elem_of_list_to_set (C := gset (Z * Z))). by apply Hall.
    + intros Hin. apply Hmiss. by apply elem_of_list_to_set.
  - apply completeness_total in Hcomp as [_ Hall].
    exfalso. apply Hno. apply (elem_of_list_to_set (C := gset (Z * Z))). by apply Hall.
Qed.

Lemma missing_operation_reported_witness :
  ∃ (j k : nat) before after,
    instance_pairs two_jobs = before ++ (Z.of_nat j, Z.of_nat k) :: after
    ∧ before ⊆ entry_key <$> [mk_entry 0 0 0 0 10]
    ∧ ((Z.of_nat j, Z.of_nat k) ∉ entry_key <$> [mk_entry 0 0 0 0 10])
    ∧ validate_solution two_jobs (solution_of [mk_entry 0 0 0 0 10]) =
        Returns (false, Some ("Operation " +:+ pretty k +:+ " of job " +:+ pretty j
                              +:+ " is not scheduled")).
Proof.
  apply (missing_operation_reported two_jobs (solution_of [mk_entry 0 0 0 0 10]) (1, 0)).
  - repeat constructor.
  - right. left.
  - intros Hin. apply list_elem_of_singleton in Hin. discriminate Hin.
Defined.

(** ** What acceptance guarantees about times *)

Section Acceptance.
Import Validate.

Lemma select_inv (key : string) (get : Entry → option Z) (v : Z) (l r : list Entry) :
  select key get v l = Returns r →
  r = filter (λ e, field_value get e = v) l.
Proof.
  revert r. induction l as [|e l IH]; intros r.
  - cbn. by intros [= <-].
  - cbn [select]. destruct (field key (get e)) as [x| |] eqn:Hx; try done.
    destruct (select key get v l) as [r'| |]; try done.
    intros Hr. cbn in Hr. injection Hr as <-. rewrite filter_cons, (IH r' eq_refl).
    apply field_returns in Hx.
    assert (Hv : field_value get e = x) by (unfold field_value; by rewrite Hx).
    rewrite Hv. case_bool_decide; case_decide; done.
Qed.

Lemma decorate_inv (key : string) (get : Entry → option Z) (l : list Entry)
    (d : list (Z * Entry)) :
  decorate key get l = Returns d → d = (λ e, (field_value get e, e)) <$> l.
Proof.
  revert d. induction l as [|e l IH]; intros d.
  - cbn. by intros [= <-].
  - cbn [decorate]. destruct (field key (get e)) as [x| |] eqn:Hx; try done.
    destruct (decorate key get l) as [d'| |]; try done.
    intros Hr. cbn in Hr. injection Hr as <-. rewrite (IH d' eq_refl).
    apply field_returns in Hx.
    assert (Hv : field_value get e = x) by (unfold field_value; by rewrite Hx).
    cbn. by rewrite Hv.
Qed.

Lemma insert_sorted_sorted (x : Z * Entry) (l : list (Z * Entry)) :
  StronglySorted (λ a b, a.1 ≤ b.1) l →
  StronglySorted (λ a b, a.1 ≤ b.1) (insert_sorted x l).
Proof.
  induction 1 as [|y l Hs IH Hy]; [repeat constructor|].
  cbn. case_bool_decide as Hxy.
  - constructor; [by constructor|]. constructor; [done|].
    eapply Forall_impl; [exact Hy|]. cbn. intros z Hz. lia.
  - constructor; [done|]. rewrite insert_sorted_perm. constructor; [lia|done].
Qed.

(** The sort puts the list in key order. *)
Lemma stable_sort_sorted (l : list (Z * Entry)) :
  StronglySorted (λ a b, a.1 ≤ b.1) (stable_sort l).
Proof.
  induction l as [|x l IH]; [constructor|]. by apply insert_sorted_sorted.
Qed.

Lemma sort_by_inv (key : string) (get : Entry → option Z) (l l' : list Entry) :
  sort_by key get l = Returns l' →
  l' ≡ₚ l ∧ StronglySorted (λ a b, field_value get a ≤ field_value get b) l'.
Proof.
  unfold sort_by. destruct (decorate key get l) as [d| |] eqn:Hd; try done.
  cbn. intros [= <-]. apply decorate_inv in Hd as ->. split.
  - rewrite stable_sort_perm, <- list_fmap_compose. by rewrite list_fmap_id.
  - pose proof (stable_sort_sorted ((λ e, (field_value get e, e)) <$> l)) as Hs.
    assert (Hshape : Forall (λ x : Z * Entry, x.1 = field_value get x.2)
                       (stable_sort ((λ e, (field_value get e, e)) <$> l))).
    { rewrite stable_sort_perm. apply Forall_fmap, Forall_forall. done. }
    induction Hs as [|x s Hs IH Hx]; [constructor|].
    apply Forall_cons in Hshape as [Hx1 Hshape].
    cbn. constructor; [by apply IH|].
    apply Forall_fmap. apply Forall_forall. intros y Hy. cbn.
    rewrite <- Hx1, <- (proj1 (Forall_forall _ _) Hshape y Hy).
    by apply (proj1 (Forall_forall _ _) Hx).
Qed.

Lemma first_overlap_inv (l : list Entry) :
  first_overlap l = Returns None → Sorted (λ a b, ctime a ≤ stime b) l.
Proof.
  induction l as [|a l IH]; [constructor|].
  destruct l as [|b l]; [repeat constructor|].
  cbn [first_overlap].
  destruct (field "completion_time" (e_completion_time a)) as [c| |] eqn:Hc; try done.
  destruct (field "start_time" (e_start_time b)) as [s| |] eqn:Hst; try done.
  cbn. case_bool_decide; [done|]. intros Hrest.
  apply field_returns in Hc, Hst.
  constructor; [by apply IH|]. constructor.
  unfold ctime, stime. rewrite Hc, Hst. cbn. lia.
Qed.

(** In start order, a chain of back-to-back entries is pairwise disjoint. *)
Lemma chain_by_start (l : list Entry) :
  StronglySorted (λ a b, stime a ≤ stime b) l →
  Sorted (λ a b, ctime a ≤ stime b) l →
  StronglySorted (λ a b, ctime a ≤ stime b) l.
Proof.
  induction 1 as [|a l Hs IH Ha]; intros Hc; [constructor|].
  apply Sorted_inv in Hc as [Hc Hhd].
  constructor; [by apply IH|].
  destruct Hhd as [|b l' Hab]; [constructor|].
  constructor; [done|].
  apply StronglySorted_inv in Hs as [_ Hb].
  eapply Forall_impl; [exact Hb|]. cbn. intros z Hz. lia.
Qed.

(** A chain of entries that do not end before they start is pairwise in
    order. *)
Lemma chain_by_duration (l : list Entry) :
  Forall (λ e, stime e ≤ ctime e) l →
  Sorted (λ a b, ctime a ≤ stime b) l →
  StronglySorted (λ a b, ctime a ≤ stime b) l.
Proof.
  induction 1 as [|a l Ha Hl IH]; intros Hc; [constructor|].
  apply Sorted_inv in Hc as [Hc Hhd].
  specialize (IH Hc). constructor; [done|].
  destruct Hhd as [|b l' Hab]; [constructor|].
  constructor; [done|].
  apply StronglySorted_inv in IH as [_ Hb].
  apply Forall_cons in Hl as [Hbd _].
  eapply Forall_impl; [exact Hb|]. cbn. intros z Hz. lia.
Qed.

Lemma check_machines_inv (sch : list Entry) (ms : list nat) (m : nat) :
  check_machines sch ms = Returns None → m ∈ ms →
  ∃ sorted, sorted ≡ₚ filter (λ e, mid e = Z.of_nat m) sch
            ∧ StronglySorted (λ a b, ctime a ≤ stime b) sorted.
Proof.
  induction ms as [|m' ms IH]; [by intros _ ?%elem_of_nil|].
  cbn [check_machines].
  destruct (select "machine" e_machine (Z.of_nat m') sch) as [ops| |] eqn:Hsel; try done.
  cbn. destruct (sort_by "start_time" e_start_time ops) as [sorted| |] eqn:Hsort; try done.
  cbn. destruct (first_overlap sorted) as [[cur|]| |] eqn:Hov; try done.
  cbn. intros Hrest [->|Hin]%elem_of_cons; [|by apply IH].
  apply select_inv in Hsel as ->. apply sort_by_inv in Hsort as [Hperm Hs].
  exists sorted. split; [done|].
  apply chain_by_start; [done|by apply first_overlap_inv].
Qed.

Lemma check_precedence_inv (sch : list Entry) (js : list nat) (j : nat) :
  check_precedence sch js = Returns None → j ∈ js →
  ∃ sorted, sorted ≡ₚ filter (λ e, jid e = Z.of_nat j) sch
            ∧ StronglySorted (λ a b, oid a ≤ oid b) sorted
            ∧ Sorted (λ a b, ctime a ≤ stime b) sorted.
Proof.
  induction js as [|j' js IH]; [by intros _ ?%elem_of_nil|].
  cbn [check_precedence].
  destruct (select "job_id" e_job_id (Z.of_nat j') sch) as [ops| |] eqn:Hsel; try done.
  cbn. destruct (sort_by "operation_id" e_operation_id ops) as [sorted| |] eqn:Hsort;
    try done.
  cbn. destruct (first_overlap sorted) as [[cur|]| |] eqn:Hov; cbn.
  - by destruct (field _ _).
  - intros Hrest [->|Hin]%elem_of_cons; [|by apply IH].
    apply select_inv in Hsel as ->. apply sort_by_inv in Hsort as [Hperm Hs].
    exists sorted. split; [done|]. split; [done|]. by apply first_overlap_inv.
  - done.
  - done.
Qed.

(** Two occurrences in a list stay two occurrences in a rearrangement of it,
    in one order or the other. *)
Lemma two_occurrences {A} (l u1 u2 u3 : list A) (a b : A) :
  l ≡ₚ u1 ++ a :: u2 ++ b :: u3 →
  ∃ v1 v2 v3, l = v1 ++ a :: v2 ++ b :: v3 ∨ l = v1 ++ b :: v2 ++ a :: v3.
Proof.
  intros Hperm.
  assert (Ha : a ∈ l) by (rewrite Hperm; set_solver).
  apply list_elem_of_split in Ha as (v & w & ->).
  apply Permutation_app_inv in Hperm.
  assert (Hb : b ∈ v ++ w) by (rewrite Hperm; set_solver).
  apply elem_of_app in Hb as [Hb|Hb]; apply list_elem_of_split in Hb as (x & y & ->).
  - exists x, y, w. right. by rewrite <- app_assoc.
  - exists v, x, y. by left.
Qed.

End Acceptance.

(** X3. Machine exclusivity: when the validator accepts a schedule, two
    entries at different places of it that carry all their fields and sit on
    the same machine of the instance do not overlap: one completes no later
    than the other starts. *)
Theorem accepted_machine_exclusive (instance : FSJPInstance) (solution : Solution)
    (l1 l2 l3 : list Entry) (a b : Entry) (m : nat) :
  validate_solution instance solution = Returns (true, None) →
  default [] (schedule solution) = l1 ++ a :: l2 ++ b :: l3 →
  full_entry a = true → full_entry b = true →
  mid a = Z.of_nat m → mid b = Z.of_nat m →
  (m < num_machines instance)%nat →
  ctime a ≤ stime b ∨ ctime b ≤ stime a.
Proof.
  intros Hacc Hsch _ _ Hma Hmb Hm. unfold validate_solution in Hacc.
  rewrite Hsch in Hacc. set (sch := l1 ++ a :: l2 ++ b :: l3) in *.
  destruct (Validate.collect sch ∅) as [keys| |]; try done. cbn in Hacc.
  destruct (Validate.completeness _ _ _ _) as [msg|total]; [done|].
  case_bool_decide; [done|].
  destruct (Validate.check_precedence sch _) as [[msg|]| |]; try done. cbn in Hacc.
  destruct (Validate.check_machines sch _) as [[msg|]| |] eqn:Hcm; try done.
  destruct (check_machines_inv sch _ m Hcm) as (sorted & Hperm & Hs).
  { apply elem_of_seq. lia. }
  unfold sch in Hperm.
  rewrite filter_app, filter_cons_True, filter_app, filter_cons_True in Hperm by done.
  destruct (two_occurrences _ _ _ _ _ _ Hperm) as (v1 & v2 & v3 & [->| ->]).
  - left. apply StronglySorted_app in Hs as (_ & _ & Hs).
    apply StronglySorted_inv in Hs as [_ Hs].
    apply (proj1 (Forall_forall _ _) Hs). set_solver.
  - right. apply StronglySorted_app in Hs as (_ & _ & Hs).
    apply StronglySorted_inv in Hs as [_ Hs].
    apply (proj1 (Forall_forall _ _) Hs). set_solver.
Qed.

Lemma accepted_machine_exclusive_witness :
  ctime (mk_entry 1 0 0 0 5) ≤ stime (mk_entry 0 0 0 5 15)
  ∨ ctime (mk_entry 0 0 0 5 15) ≤ stime (mk_entry 1 0 0 0 5).
Proof.
  apply (accepted_machine_exclusive two_jobs
           (solution_of [mk_entry 1 0 0 0 5; mk_entry 0 0 0 5 15])
           [] [] [] (mk_entry 1 0 0 0 5) (mk_entry 0 0 0 5 15) 0).
  - vm_compute. reflexivity.
  - reflexivity.
  - reflexivity.
  - reflexivity.
  - reflexivity.
  - reflexivity.
  - vm_compute. lia.
Defined.

(** X4. Precedence: when the validator accepts a schedule none of whose
    entries completes before it starts, then of two entries of the same job
    of the instance, the one with the smaller [operation_id] completes no
    later than the other starts. *)
Theorem accepted_precedence (instance : FSJPInstance) (solution : Solution)
    (a b : Entry) (j : nat) :
  validate_solution instance solution = Returns (true, None) →
  Forall (λ e, full_entry e = true ∧ stime e ≤ ctime e) (default [] (schedule solution)) →
  a ∈ default [] (schedule solution) →
  b ∈ default [] (schedule solution) →
  jid a = Z.of_nat j → jid b = Z.of_nat j →
  (j < num_jobs instance)%nat →
  oid a < oid b →
  ctime a ≤ stime b.
Proof.
  intros Hacc Hdur Ha Hb Hja Hjb Hj Hlt. unfold validate_solution in Hacc.
  set (sch := default [] (schedule solution)) in *.
  destruct (Validate.collect sch ∅) as [keys| |]; try done. cbn in Hacc.
  destruct (Validate.completeness _ _ _ _) as [msg|total]; [done|].
  case_bool_decide; [done|].
  destruct (Validate.check_precedence sch _) as [[msg|]| |] eqn:Hcp; try done.
  destruct (check_precedence_inv sch _ j Hcp) as (sorted & Hperm & Hord & Hchain).
  { apply elem_of_seq. lia. }
  assert (Hin : ∀ e, e ∈ sch → jid e = Z.of_nat j → e ∈ sorted).
  { intros e He Hje. rewrite Hperm. by apply list_elem_of_filter. }
  assert (Hdur' : Forall (λ e, stime e ≤ ctime e) sorted).
  { apply Forall_forall. intros e He. rewrite Hperm in He.
    apply list_elem_of_filter in He as [_ He].
    by apply (proj1 (Forall_forall _ _) Hdur e He). }
  pose proof (chain_by_duration sorted Hdur' Hchain) as Hpair.
  destruct (list_elem_of_split _ _ (Hin a Ha Hja)) as (v & w & Hsplit).
  rewrite Hsplit in Hord, Hpair.
  assert (Hbw : b ∈ v ++ a :: w) by (rewrite <- Hsplit; by apply Hin).
  apply elem_of_app in Hbw as [Hbv|Hbw].
  - apply StronglySorted_app in Hord as (Hcross & _ & _).
    specialize (Hcross b a Hbv (list_elem_of_here _ _)). cbn in Hcross. lia.
  - apply elem_of_cons in Hbw as [->|Hbw]; [lia|].
    apply StronglySorted_app in Hpair as (_ & _ & Hpair).
    apply StronglySorted_inv in Hpair as [_ Hpair].
    by apply (proj1 (Forall_forall _ _) Hpair).
Qed.

Lemma accepted_precedence_witness :
  ctime (mk_entry 0 0 0 0 3) ≤ stime (mk_entry 0 1 0 3 7).
Proof.
  apply (accepted_precedence Samples.chain (solution_of Samples.chain_schedule)
           (mk_entry 0 0 0 0 3) (mk_entry 0 1 0 3 7) 0).
  - vm_compute. reflexivity.
  - repeat constructor; vm_compute; discriminate.
  - left.
  - right. left.
  - reflexivity.
  - reflexivity.
  - vm_compute. lia.
  - vm_compute. reflexivity.
Defined.

(** ** The times the heuristic assigns *)

Section Times.
Import SPT Run Dispatch.
Context (instance : FSJPInstance) (Hvalid : valid_instance instance = true).

Lemma last_completion_snoc (P : Entry → bool) (l : list Entry) (e : Entry) :
  last_completion P (l ++ [e]) = if P e then ctime e else last_completion P l.
Proof. unfold last_completion. by rewrite foldl_app. Qed.

Lemma last_completion_cases (P : Entry → bool) (l : list Entry) :
  last_completion P l = 0 ∨ ∃ e, e ∈ l ∧ last_completion P l = ctime e.
Proof.
  induction l as [|e l IH] using rev_ind; [by left|].
  rewrite last_completion_snoc. destruct (P e).
  - right. exists e. split; [|done]. apply elem_of_app. right. left.
  - destruct IH as [IH|(x & Hx & IH)]; [by left|].
    right. exists x. split; [|done]. apply elem_of_app. by left.
Qed.

Lemma dispatched_positive (e : Entry) : dispatched instance e → 0 ≤ stime e < ctime e.
Proof.
  intros (j & k & m & jb & op & d & s & -> & _ & _ & _ & _ & Hd & Hs).
  unfold stime, ctime. cbn. lia.
Qed.

Lemma last_completion_nonneg (P : Entry → bool) (l : list Entry) :
  Forall (dispatched instance) l → 0 ≤ last_completion P l.
Proof.
  intros Hl. destruct (last_completion_cases P l) as [->|(e & He & ->)]; [done|].
  pose proof (dispatched_positive e (proj1 (Forall_forall _ _) Hl e He)). lia.
Qed.

Lemma snoc_split {A} (l l1 l2 : list A) (x e : A) :
  l ++ [x] = l1 ++ e :: l2 →
  (l2 = [] ∧ l1 = l ∧ e = x) ∨ ∃ l2', l2 = l2' ++ [x] ∧ l = l1 ++ e :: l2'.
Proof.
  destruct l2 as [|y l2 _] using rev_ind.
  - intros H. apply app_inj_tail in H as [-> ->]. by left.
  - intros H. right. exists l2.
    replace (l1 ++ e :: l2 ++ [y]) with ((l1 ++ e :: l2) ++ [y]) in H
      by (by rewrite <- app_assoc).
    apply app_inj_tail in H as [-> ->]. done.
Qed.

Lemma times_inv_fires (st st' : state) :
  wf instance st → times_inv instance st → fires instance st st' →
  times_inv instance st'.
Proof.
  intros Hwf [Hent Hma Hjc Hstarts] HF.
  destruct HF as [j k m jb op d avail ready Hjb Hk Hop Hin Hd Ha Hr].
  destruct (valid_instance_op _ _ _ _ _ Hvalid Hjb Hop) as (Hid & _ & Hms).
  destruct (Hms _ Hin) as [Hrange (d' & Hd' & Hpos)].
  rewrite Hd in Hd'. injection Hd' as <-. rewrite Hid.
  pose proof (Hma m avail Ha) as Havail. pose proof (Hjc j ready Hr) as Hready.
  assert (0 ≤ avail) by (rewrite Havail; by apply last_completion_nonneg).
  set (s := Z.max avail ready).
  set (e := mk_entry (Z.of_nat j) (Z.of_nat k) (Z.of_nat m) s (s + d)).
  split; cbn [sched machine_available job_operation_idx job_completion].
  - apply Forall_app. split; [done|]. apply Forall_singleton.
    exists j, k, m, jb, op, d, s. repeat split; try done; lia.
  - intros m' a Hm'. rewrite last_completion_snoc.
    unfold on_machine, mid. cbn. case_bool_decide as Hmm.
    + apply Nat2Z.inj in Hmm. subst m'.
      rewrite list_lookup_insert_eq in Hm' by (by eapply lookup_lt_Some).
      by injection Hm' as <-.
    + rewrite list_lookup_insert_ne in Hm' by congruence. by apply Hma.
  - intros j' r Hj'. rewrite last_completion_snoc.
    unfold of_job, jid. cbn. case_bool_decide as Hjj.
    + apply Nat2Z.inj in Hjj. subst j'.
      rewrite list_lookup_insert_eq in Hj' by (by eapply lookup_lt_Some).
      by injection Hj' as <-.
    + rewrite list_lookup_insert_ne in Hj' by congruence. by apply Hjc.
  - intros l1 x l2 Hsplit.
    apply snoc_split in Hsplit as [(-> & -> & ->)|(l2' & -> & Hsplit)].
    + unfold stime, mid, jid. cbn. by rewrite <- Havail, <- Hready.
    + by eapply Hstarts.
Qed.

Lemma times_inv_init : times_inv instance (init instance).
Proof.
  split; cbn.
  - constructor.
  - intros m a Hm. by apply lookup_replicate in Hm as [-> _].
  - intros j r Hj. by apply lookup_replicate in Hj as [-> _].
  - intros l1 e l2 Hsplit. by destruct l1.
Qed.

(** The heuristic returns from a finished state that meets both
    invariants. *)
Lemma spt_returns_times (fuel : nat) :
  (total_operations instance < fuel)%nat →
  ∃ st m,
    shortest_processing_time fuel instance =
      Returns {| makespan := Finite m; schedule := Some (sched st);
                 algorithm_type := Some "shortest_processing_time";
                 error := None; execution_time := None |}
    ∧ py_max (job_completion st) = Returns m
    ∧ wf instance st ∧ sched_inv st ∧ times_inv instance st ∧ finished instance st.
Proof.
  intros Hfuel.
  destruct (loop_returns instance Hvalid (λ st, sched_inv st ∧ times_inv instance st))
    with (fuel := fuel) (st := init instance)
    as (st & Hloop & Hwf & [Hinv Htimes] & Hfin).
  { intros st st' Hwf [Hinv Htimes] HF. split.
    - by eapply sched_inv_fires.
    - by eapply times_inv_fires. }
  { by apply init_wf. }
  { split; [apply sched_inv_init|apply times_inv_init]. }
  { rewrite init_cursor_sum. lia. }
  unfold shortest_processing_time. rewrite Hloop. cbn.
  destruct (py_max (job_completion st)) as [m| |] eqn:Hmax.
  - cbn. by exists st, m.
  - destruct (job_completion st) as [|r rs] eqn:Hjc; [|done].
    pose proof (wf_completion _ _ Hwf) as Hlen. rewrite Hjc in Hlen.
    destruct (valid_instance_jobs _ Hvalid) as [Hpos _]. cbn in Hlen. lia.
  - by destruct (job_completion st).
Qed.

Lemma foldl_max_bound (l : list Z) (a : Z) :
  (foldl Z.max a l = a ∨ foldl Z.max a l ∈ l)
  ∧ a ≤ foldl Z.max a l ∧ Forall (λ r, r ≤ foldl Z.max a l) l.
Proof.
  revert a. induction l as [|x l IH]; intros a; cbn.
  - split; [by left|]. split; [lia|constructor].
  - destruct (IH (Z.max a x)) as (Hin & Hle & Hall). split; [|split].
    + destruct Hin as [Hin|Hin]; [|right; by right].
      destruct (Z.max_spec a x) as [[_ Hm]|[_ Hm]]; rewrite Hm in *.
      * right. rewrite Hin. left.
      * by left.
    + lia.
    + constructor; [lia|done].
Qed.

Lemma py_max_spec (l : list Z) (m : Z) :
  py_max l = Returns m → m ∈ l ∧ Forall (λ r, r ≤ m) l.
Proof.
  destruct l as [|x l]; [done|]. unfold py_max. intros [= <-].
  destruct (foldl_max_bound l x) as (Hin & Hle & Hall). split.
  - destruct Hin as [Hin|Hin]; [rewrite Hin; left|by right].
  - by constructor.
Qed.

End Times.

(** X5. Every entry of the schedule the heuristic returns on an instance that
    meets the invariants runs an operation of the instance on one of its
    eligible machines, for exactly the duration the instance gives it on that
    machine, and starts at a time that is not negative. *)
Theorem heuristic_entries_dispatched (instance : FSJPInstance) (fuel : nat) :
  valid_instance instance = true →
  (total_operations instance < fuel)%nat →
  ∃ r sch,
    shortest_processing_time fuel instance = Returns r
    ∧ schedule r = Some sch
    ∧ Forall (Dispatch.dispatched instance) sch.
Proof.
  intros Hvalid Hfuel.
  destruct (spt_returns_times instance Hvalid fuel Hfuel)
    as (st & m & Hrun & _ & _ & _ & Htimes & _).
  eexists _, _. split; [exact Hrun|]. split; [done|].
  exact (Dispatch.ti_entries _ _ Htimes).
Qed.

Lemma heuristic_entries_dispatched_witness :
  ∃ r sch,
    shortest_processing_time 4 (add_job anomaly short_job) = Returns r
    ∧ schedule r = Some sch
    ∧ Forall (Dispatch.dispatched (add_job anomaly short_job)) sch.
Proof.
  apply (heuristic_entries_dispatched (add_job anomaly short_job) 4).
  - reflexivity.
  - vm_compute. lia.
Defined.

(** X6. In the schedule the heuristic returns, every entry starts exactly
    when its machine and its job are both free: at the later of the last
    completion on its machine and the last completion of its job among the
    entries dispatched before it (0 when there is none). *)
Theorem heuristic_starts_earliest (instance : FSJPInstance) (fuel : nat) :
  valid_instance instance = true →
  (total_operations instance < fuel)%nat →
  ∃ r sch,
    shortest_processing_time fuel instance = Returns r
    ∧ schedule r = Some sch
    ∧ Dispatch.earliest_starts sch.
Proof.
  intros Hvalid Hfuel.
  destruct (spt_returns_times instance Hvalid fuel Hfuel)
    as (st & m & Hrun & _ & _ & _ & Htimes & _).
  eexists _, _. split; [exact Hrun|]. split; [done|].
  exact (Dispatch.ti_starts _ _ Htimes).
Qed.

Lemma heuristic_starts_earliest_witness :
  ∃ r sch,
    shortest_processing_time 4 (add_job anomaly short_job) = Returns r
    ∧ schedule r = Some sch
    ∧ Dispatch.earliest_starts sch.
Proof.
  apply (heuristic_starts_earliest (add_job anomaly short_job) 4).
  - reflexivity.
  - vm_compute. lia.
Defined.

(** X7. The makespan the heuristic returns is the largest completion time of
    its schedule: no entry completes later, some entry completes then, and
    it is 0 exactly when the schedule is empty. *)
Theorem heuristic_makespan_is_last_completion (instance : FSJPInstance) (fuel : nat) :
  valid_instance instance = true →
  (total_operations instance < fuel)%nat →
  ∃ r sch m,
    shortest_processing_time fuel instance = Returns r
    ∧ schedule r = Some sch
    ∧ makespan r = Finite m
    ∧ Forall (λ e, ctime e ≤ m) sch
    ∧ (sch = [] → m = 0)
    ∧ (sch ≠ [] → ∃ e, e ∈ sch ∧ ctime e = m).
Proof.
  intros Hvalid Hfuel.
  destruct (spt_returns_times instance Hvalid fuel Hfuel)
    as (st & m & Hrun & Hmax & Hwf & Hinv & Htimes & _).
  apply py_max_spec in Hmax as [Hin Hall].
  apply list_elem_of_lookup in Hin as [j Hj].
  pose proof (Dispatch.ti_jobs _ _ Htimes j m Hj) as Hm.
  assert (Hbound : Forall (λ e, ctime e ≤ m) (SPT.sched st)).
  { eapply Forall_impl; [exact (Run.inv_entries _ Hinv)|].
    intros e (j0 & k0 & m0 & n0 & s0 & c0 & r0 & a0 & -> & _ & _ & Hr0 & Hc0 & _).
    pose proof (proj1 (Forall_forall _ _) Hall r0 (list_elem_of_lookup_2 _ _ _ Hr0)) as Hr.
    cbn in Hr. unfold ctime. cbn. lia. }
  eexists _, _, m. split; [exact Hrun|]. split; [done|]. split; [done|].
  split; [done|]. split.
  - intros Hnil. by rewrite Hm, Hnil.
  - intros Hne.
    destruct (last_completion_cases (Dispatch.of_job (Z.of_nat j)) (SPT.sched st))
      as [H0|(e & He & Hlast)].
    + destruct (SPT.sched st) as [|e l] eqn:Hsch; [done|].
      apply Forall_cons in Hbound as [He _].
      pose proof (Dispatch.ti_entries _ _ Htimes) as Hent. rewrite Hsch in Hent.
      apply Forall_cons in Hent as [Hd _].
      pose proof (dispatched_positive instance e Hd). lia.
    + exists e. split; [done|]. by rewrite Hm.
Qed.

Lemma heuristic_makespan_is_last_completion_witness :
  ∃ r sch m,
    shortest_processing_time 3 two_jobs = Returns r
    ∧ schedule r = Some sch
    ∧ makespan r = Finite m
    ∧ Forall (λ e, ctime e ≤ m) sch
    ∧ (sch = [] → m = 0)
    ∧ (sch ≠ [] → ∃ e, e ∈ sch ∧ ctime e = m).
Proof.
  apply (heuristic_makespan_is_last_completion two_jobs 3).
  - reflexivity.
  - vm_compute. lia.
Defined.

(** ** The dispatch rule *)

Section Greedy.
Import SPT Run Dispatch.
Context (instance : FSJPInstance) (Hvalid : valid_instance instance = true).







End Greedy.



(** ** Instances the heuristic cannot schedule *)

(** X9. With [num_jobs = 0] the loop ends at once and [max(job_completion)]
    is taken of an empty list: the heuristic raises [ValueError] instead of
    returning an empty schedule. *)
Theorem no_jobs_raises_value_error (instance : FSJPInstance) (fuel : nat) :
  num_jobs instance = 0%nat →
  shortest_processing_time (S fuel) instance =
  Raises (Exn ValueError "max() arg is an empty sequence").
Proof.
  intros Hnone. unfold shortest_processing_time, SPT.init. cbn [SPT.loop].
  rewrite Hnone. reflexivity.
Qed.

Lemma no_jobs_raises_value_error_witness :
  shortest_processing_time 1 Samples.no_jobs =
  Raises (Exn ValueError "max() arg is an empty sequence").
Proof. apply (no_jobs_raises_value_error Samples.no_jobs 0). reflexivity. Defined.

Section Range.
Import SPT.
Context (instance : FSJPInstance).

Lemma py_nth_outcome {A} (l : list A) (i : nat) :
  (∃ x, py_nth l i = Returns x ∧ l !! i = Some x)
  ∨ (py_nth l i = Raises index_error ∧ l !! i = None).
Proof. unfold py_nth. destruct (l !! i); eauto. Qed.

Lemma all_done_outcome (st : state) (js : list nat) :
  match all_done instance st js with
  | Returns true => ∀ j, j ∈ js → (j < length (jobs instance))%nat
  | Returns false => True
  | Raises e => lookup_error e
  | OutOfFuel => False
  end.
Proof.
  induction js as [|j js IH]; cbn [all_done].
  - by intros j ?%elem_of_nil.
  - destruct (py_nth_outcome (job_operation_idx st) j) as [(n & -> & _)|[-> _]];
      [|by left].
    destruct (py_nth_outcome (jobs instance) j) as [(jb & -> & Hjb)|[-> _]];
      [|by left].
    cbn. case_bool_decide; [|done].
    destruct (all_done instance st js) as [[|]| |]; try done.
    intros j' [->|Hj']%elem_of_cons; [by eapply lookup_lt_Some|by apply IH].
Qed.

Lemma scan_machines_outcome (st : state) (j : nat) (op : Operation) (ms : list Z)
    (b : option best) :
  match scan_machines st j op ms b with
  | Returns _ => True
  | Raises e => lookup_error e
  | OutOfFuel => False
  end.
Proof.
  revert b. induction ms as [|m ms IH]; intros b; [done|].
  cbn [scan_machines]. unfold dict_get.
  destruct (processing_times op !! m); [|by right]. cbn.
  unfold py_index. destruct (py_pos _ _) as [p|]; [|by left].
  destruct (machine_available st !! p); [|by left]. cbn.
  destruct (py_nth_outcome (job_completion st) j) as [(r & -> & _)|[-> _]]; [|by left].
  apply IH.
Qed.

Lemma scan_jobs_outcome (st : state) (js : list nat) (b : option best) :
  match scan_jobs instance st js b with
  | Returns _ => ∀ j, j ∈ js → (j < length (jobs instance))%nat
  | Raises e => lookup_error e
  | OutOfFuel => False
  end.
Proof.
  revert b. induction js as [|j js IH]; intros b; cbn [scan_jobs].
  - by intros j ?%elem_of_nil.
  - destruct (py_nth_outcome (job_operation_idx st) j) as [(n & -> & _)|[-> _]];
      [|by left].
    destruct (py_nth_outcome (jobs instance) j) as [(jb & -> & Hjb)|[-> _]];
      [|by left].
    cbn. case_bool_decide.
    + specialize (IH b). destruct (scan_jobs instance st js b); try done.
      intros j' [->|Hj']%elem_of_cons; [by eapply lookup_lt_Some|by apply IH].
    + destruct (py_nth_outcome (operations jb) n) as [(op & -> & _)|[-> _]];
        [|by left].
      cbn. pose proof (scan_machines_outcome st j op (eligible_machines op) b) as Hms.
      destruct (scan_machines st j op (eligible_machines op) b) as [b1| |]; try done.
      cbn. specialize (IH b1). destruct (scan_jobs instance st js b1); try done.
      intros j' [->|Hj']%elem_of_cons; [by eapply lookup_lt_Some|by apply IH].
Qed.

End Range.

(** X10. When [num_jobs] exceeds the number of jobs the instance holds, the
    heuristic does not get through its first pass: it raises [IndexError]
    (or the [KeyError] of a missing processing time met before). *)
Theorem short_job_list_raises (instance : FSJPInstance) (fuel : nat) :
  (length (jobs instance) < num_jobs instance)%nat →
  ∃ e, shortest_processing_time (S fuel) instance = Raises e ∧ lookup_error e.
Proof.
  intros Hshort.
  assert (Hin : length (jobs instance) ∈ seq 0 (num_jobs instance)).
  { apply elem_of_seq. lia. }
  unfold shortest_processing_time. cbn [SPT.loop].
  pose proof (all_done_outcome instance (SPT.init instance) (seq 0 (num_jobs instance)))
    as Hdone.
  destruct (SPT.all_done instance (SPT.init instance) _) as [[|]|e|]; cbn.
  - specialize (Hdone _ Hin). lia.
  - unfold SPT.step.
    pose proof (scan_jobs_outcome instance (SPT.init instance)
                  (seq 0 (num_jobs instance)) None) as Hscan.
    destruct (SPT.scan_jobs instance (SPT.init instance) _ None) as [b|e|]; cbn.
    + specialize (Hscan _ Hin). lia.
    + by exists e.
    + done.
  - by exists e.
  - done.
Qed.

Lemma short_job_list_raises_witness :
  ∃ e, shortest_processing_time 1 Samples.short_jobs = Raises e ∧ lookup_error e.
Proof.
  apply (short_job_list_raises Samples.short_jobs 0). vm_compute. lia.
Defined.

(** ** [run_algorithm] and the validator together *)

Lemma load_enabled_raises (L : Loader) (items : list (string * bool))
    (algorithms : gmap string algorithm) (e : exn) :
  Load.load_enabled L items algorithms = Raises e →
  ∃ name, (name, true) ∈ items ∧ import_function L name = Raises e
          ∧ exn_class e ≠ ImportError.
Proof.
  revert algorithms. induction items as [|[name enabled] items IH]; intros algorithms;
    [done|].
  cbn [Load.load_enabled].
  assert (Hrest : ∀ algs, Load.load_enabled L items algs = Raises e →
            ∃ name', (name', true) ∈ (name, enabled) :: items
                     ∧ import_function L name' = Raises e
                     ∧ exn_class e ≠ ImportError).
  { intros algs Hr. destruct (IH _ Hr) as (name' & Hin & Himp).
    exists name'. split; [by right|done]. }
  destruct enabled; cbn; [|by apply Hrest].
  destruct (import_function L name) as [[f|]|e'|] eqn:Himp; try done;
    try by apply Hrest.
  destruct (exn_class e') eqn:Hclass; try by apply Hrest.
  all: intros [= ->]; exists name; split; [left|split; [done|congruence]].
Qed.

(** X11. The only exceptions [run_algorithm] raises are those of its call
    of [load_algorithms()]: it raises exactly when that call raises, with the
    same exception, which is one raised while reading the configuration or by
    the import of an enabled algorithm and is not an [ImportError]. An
    exception of the scheduling function never escapes. *)
Theorem run_algorithm_raises_only_from_loading (L : Loader) (elapsed : Q)
    (name : string) (instance : FSJPInstance) (e : exn) :
  (run_algorithm_call L elapsed name instance = Raises e ↔ load_algorithms L = Raises e)
  ∧ (load_algorithms L = Raises e →
     config_algorithms L = Raises e
     ∨ ∃ items alg_name,
         config_algorithms L = Returns items
         ∧ (alg_name, true) ∈ items
         ∧ import_function L alg_name = Raises e
         ∧ exn_class e ≠ ImportError).
Proof.
  split.
  - unfold run_algorithm_call.
    destruct (load_algorithms L) as [algorithms|e'|]; cbn;
      [|by split; intros [= ->]|by split].
    unfold run_algorithm, algorithm in *.
    destruct (algorithms !! name) as [alg|]; [|by split].
    by destruct (alg instance) as [[s|]| |]; split.
  - unfold load_algorithms.
    destruct (config_algorithms L) as [items|e'|]; cbn;
      [|by intros [= ->]; left|done].
    intros Hload. right.
    destruct (load_enabled_raises _ _ _ _ Hload) as (alg_name & Hin & Himp & Hclass).
    by exists items, alg_name.
Qed.

Lemma run_algorithm_raises_only_from_loading_witness :
  run_algorithm_call Samples.no_config 0 "shortest_processing_time" two_jobs
  = Raises (Exn FileNotFoundError
              "[Errno 2] No such file or directory: 'config.json'").
Proof.
  apply (run_algorithm_raises_only_from_loading Samples.no_config 0
           "shortest_processing_time" two_jobs).
  reflexivity.
Defined.

Lemma validate_reads_schedule (instance : FSJPInstance) (s1 s2 : Solution) :
  schedule s1 = schedule s2 →
  validate_solution instance s1 = validate_solution instance s2.
Proof. unfold validate_solution. by intros ->. Qed.

(** The validator accepts what the heuristic returns on a valid instance. *)
Lemma heuristic_validated (instance : FSJPInstance) (fuel : nat) :
  valid_instance instance = true →
  (total_operations instance < fuel)%nat →
  ∃ r m,
    shortest_processing_time fuel instance = Returns r
    ∧ makespan r = Finite m ∧ error r = None
    ∧ validate_solution instance r = Returns (true, None).
Proof.
  intros Hvalid Hfuel.
  destruct (spt_returns instance Hvalid fuel Hfuel) as (st & m & Hrun & Hwf & Hinv & Hfin).
  eexists _, m. split; [exact Hrun|]. split; [done|]. split; [done|].
  assert (Hfull : Forall (λ e, full_entry e = true) (SPT.sched st)).
  { eapply Forall_impl; [exact (Run.inv_entries _ Hinv)|]. apply entry_ok_full. }
  assert (Hkeys : Forall (λ e, has_key e = true) (SPT.sched st)).
  { eapply Forall_impl; [exact Hfull|]. intros e He.
    unfold full_entry in He. rewrite !andb_true_iff in He. tauto. }
  unfold validate_solution. cbn [schedule default].
  rewrite (collect_keys _ _ Hkeys). cbn.
  rewrite completeness_all; cycle 1.
  { intros p Hp. apply elem_of_union. left. apply elem_of_list_to_set.
    by apply (finished_keys instance st). }
  rewrite bool_decide_eq_false_2; cycle 1.
  { intros Hne. apply Hne. rewrite (right_id_L ∅ (∪)).
    rewrite size_list_to_set by exact (Run.inv_nodup _ Hinv).
    rewrite length_fmap, length_pairs_from.
    by apply finished_count. }
  rewrite check_precedence_ordered; [|done|exact (Run.inv_order _ Hinv)]. cbn.
  rewrite check_machines_ordered; [|done|exact (Run.inv_order _ Hinv)]. done.
Qed.

(** X12. The experiment pipeline: when the registry holds the heuristic
    under [name], [run_algorithm] on an instance that meets the invariants
    returns a dict with a finite makespan, no error and the execution time,
    and the validator accepts that dict. *)
Theorem run_heuristic_validated (algorithms : gmap string algorithm) (elapsed : Q)
    (name : string) (instance : FSJPInstance) (fuel : nat) :
  algorithms !! name
    = Some (λ i, r ← shortest_processing_time fuel i; Returns (AsDict r)) →
  valid_instance instance = true →
  (total_operations instance < fuel)%nat →
  ∃ s m,
    run_algorithm algorithms elapsed name instance = Returns s
    ∧ makespan s = Finite m ∧ error s = None ∧ execution_time s = Some elapsed
    ∧ validate_solution instance s = Returns (true, None).
Proof.
  unfold run_algorithm, algorithm in *. intros -> Hvalid Hfuel.
  destruct (heuristic_validated instance fuel Hvalid Hfuel) as (r & m & -> & Hm & He & Hv).
  eexists _, m. split; [reflexivity|].
  split; [exact Hm|]. split; [exact He|]. split; [reflexivity|].
  etransitivity; [|exact Hv]. by apply validate_reads_schedule.
Qed.

Lemma run_heuristic_validated_witness :
  ∃ s m,
    run_algorithm registry 0 "shortest_processing_time" two_jobs = Returns s
    ∧ makespan s = Finite m ∧ error s = None ∧ execution_time s = Some 0%Q
    ∧ validate_solution two_jobs s = Returns (true, None).
Proof.
  apply (run_heuristic_validated registry 0 "shortest_processing_time" two_jobs 10).
  - reflexivity.
  - reflexivity.
  - vm_compute. lia.
Defined.

(** X13. A run that failed is reported as invalid: the dict [run_algorithm]
    returns for an unknown name or for an algorithm that raised has an
    infinite makespan and no schedule, and on an instance with at least one
    operation the validator answers that the first operation of the instance
    is not scheduled. *)
Theorem failed_run_reported_invalid (algorithms : gmap string algorithm) (elapsed : Q)
    (name : string) (instance : FSJPInstance) :
  (0 < total_operations instance)%nat →
  (algorithms !! name = None
   ∨ ∃ alg e, algorithms !! name = Some alg ∧ alg instance = Raises e) →
  ∃ s (j k : nat) rest,
    run_algorithm algorithms elapsed name instance = Returns s
    ∧ makespan s = Inf
    ∧ instance_pairs instance = (Z.of_nat j, Z.of_nat k) :: rest
    ∧ validate_solution instance s =
        Returns (false, Some ("Operation " +:+ pretty k +:+ " of job " +:+ pretty j
                              +:+ " is not scheduled")).
Proof.
  intros Hops Hfail.
  assert (Hrun : ∃ s, run_algorithm algorithms elapsed name instance = Returns s
                      ∧ makespan s = Inf ∧ schedule s = None).
  { unfold run_algorithm, algorithm in *.
    destruct Hfail as [->|(alg & e & -> & ->)]; eexists; cbn; done. }
  destruct Hrun as (s & Hs & Hinf & Hnone).
  exists s. unfold validate_solution. rewrite Hnone. cbn.
  destruct (Validate.completeness ∅ 0 (jobs instance) 0) as [msg|total] eqn:Hcomp.
  - destruct (completeness_first _ _ _ _ _ Hcomp)
      as (j & k & before & after & Hpairs & Hall & _ & ->).
    destruct before as [|p before]; cycle 1.
    { specialize (Hall p (list_elem_of_here _ _)). by apply elem_of_empty in Hall. }
    by exists j, k, after.
  - apply completeness_total in Hcomp as [_ Hall].
    unfold total_operations in Hops. rewrite <- (length_pairs_from 0) in Hops.
    destruct (pairs_from 0 (jobs instance)) as [|p ps]; [cbn in Hops; lia|].
    specialize (Hall p (list_elem_of_here _ _)). by apply elem_of_empty in Hall.
Qed.

Lemma failed_run_reported_invalid_witness :
  ∃ s (j k : nat) rest,
    run_algorithm registry 0 "shortest_processing_time" bad_machine = Returns s
    ∧ makespan s = Inf
    ∧ instance_pairs bad_machine = (Z.of_nat j, Z.of_nat k) :: rest
    ∧ validate_solution bad_machine s =
        Returns (false, Some ("Operation " +:+ pretty k +:+ " of job " +:+ pretty j
                              +:+ " is not scheduled")).
Proof.
  apply (failed_run_reported_invalid registry 0 "shortest_processing_time" bad_machine).
  - vm_compute. lia.
  - right. eexists _, _. split; [reflexivity|]. vm_compute. reflexivity.
Defined.

(** ** The instance generator *)

Lemma lowest_ok : random_ok Samples.lowest.
Proof.
  split; cbn.
  - intros a b g Hab. exists a, g. rewrite bool_decide_eq_true_2 by done.
    split; [done|lia].
  - intros a b g Hab. eexists. rewrite bool_decide_eq_false_2 by lia. done.
  - intros n k g Hk. eexists _, g. rewrite bool_decide_eq_true_2 by done.
    split; [done|]. split; [|split].
    + apply NoDup_fmap_2; [|apply NoDup_seq]. intros x y. lia.
    + rewrite length_fmap, length_seq. lia.
    + intros m (x & -> & Hx)%list_elem_of_fmap. apply elem_of_seq in Hx. lia.
  - intros n k g Hk. eexists. rewrite bool_decide_eq_false_2 by lia. done.
  - intros a b g Hab. lia.
Qed.

Section Generated.
Import Generator.
Context (R : Random) (HR : random_ok R) (config : Config) (machines : nat).

Lemma list_to_map_const (l : list Z) (v m : Z) :
  m ∈ l → (list_to_map ((λ x, (x, v)) <$> l) : gmap Z Z) !! m = Some v.
Proof.
  induction l as [|x l IH]; [by intros ?%elem_of_nil|].
  intros Hm. cbn. destruct (decide (x = m)) as [->|Hne].
  - by rewrite lookup_insert_eq.
  - rewrite lookup_insert_ne by done. apply IH.
    by apply elem_of_cons in Hm as [->|Hm].
Qed.

Lemma forallb_intro {A} (f : A → bool) (l : list A) :
  Forall (λ x, f x = true) l → forallb f l = true.
Proof. induction 1 as [|x l Hx _ IH]; [done|]. cbn. by rewrite Hx, IH. Qed.

Lemma Forall2_zip_forallb {A B} (f : A * B → bool) (l : list A) (k : list B) :
  Forall2 (λ x y, f (x, y) = true) l k → forallb f (zip l k) = true.
Proof. induction 1 as [|x y l k Hxy _ IH]; [done|]. cbn. by rewrite Hxy, IH. Qed.

Section Flexible.
Context (Hflex_low : 1 ≤ (cfg_flexibility config).1)
        (Hflex_high : (cfg_flexibility config).1 ≤ (cfg_flexibility config).2)
        (Hflex_machines : (cfg_flexibility config).1 ≤ Z.of_nat machines)
        (Hduration : 0 < (default (10, 100) (cfg_operation_duration config)).1
                     ≤ (default (10, 100) (cfg_operation_duration config)).2).

Lemma generate_operations_valid (op_ids : list nat) (g : rng R) :
  ∃ ops g',
    generate_operations R config machines op_ids g = Returns (ops, g')
    ∧ Forall2 (λ k op, valid_operation machines (k, op) = true) op_ids ops.
Proof.
  revert g. induction op_ids as [|k ks IH]; intros g.
  - exists [], g. split; [done|constructor].
  - cbn [generate_operations].
    destruct (randint_in_range R HR (cfg_flexibility config).1
                (Z.min (cfg_flexibility config).2 (Z.of_nat machines)) g)
      as (flexibility & g1 & -> & Hf); [lia|].
    cbn.
    destruct (sample_distinct R HR machines flexibility g1)
      as (eligible & g2 & -> & Hnd & Hlen & Hrange); [lia|].
    cbn.
    pose proof (uniform_in_range R HR _ _ g2 (proj2 Hduration)) as Hu.
    destruct (uniform R _ _ g2) as [processing_time g3]. cbn in Hu.
    destruct (IH g3) as (ops & g4 & -> & Hops). cbn.
    eexists _, g4. split; [reflexivity|]. constructor; [|done].
    unfold valid_operation. cbn. rewrite !andb_true_iff. split; [split|].
    + by apply bool_decide_eq_true.
    + apply bool_decide_eq_true. intros ->. cbn in Hlen. lia.
    + apply forallb_intro, Forall_forall. intros m Hm.
      unfold valid_machine. cbn. rewrite (list_to_map_const _ _ _ Hm).
      rewrite andb_true_iff, !bool_decide_eq_true. split; [by apply Hrange|lia].
Qed.

Lemma generate_jobs_valid (job_ids : list nat) (g : rng R) :
  (cfg_operations_per_job config).1 ≤ (cfg_operations_per_job config).2 →
  ∃ js g',
    generate_jobs R config machines job_ids g = Returns (js, g')
    ∧ length js = length job_ids
    ∧ Forall (λ jb, valid_job machines jb = true) js.
Proof.
  intros Hops. revert g. induction job_ids as [|j js IH]; intros g.
  - exists [], g. split; [done|]. split; [done|constructor].
  - cbn [generate_jobs].
    destruct (randint_in_range R HR _ _ g Hops) as (n & g1 & -> & Hn). cbn.
    destruct (generate_operations_valid (seq 0 (Z.to_nat n)) g1) as (ops & g2 & -> & Hv).
    cbn. destruct (IH g2) as (jobs' & g3 & -> & Hlen & Hjobs). cbn.
    eexists _, g3. split; [reflexivity|]. split; [cbn; by rewrite Hlen|].
    constructor; [|done]. unfold valid_job. cbn.
    rewrite <- (Forall2_length _ _ _ Hv), length_seq.
    by apply Forall2_zip_forallb.
Qed.

End Flexible.

Section Rigid.
Context (Hrigid : cfg_flexibility config = (0, 0)).

Lemma generate_operations_rigid (op_ids : list nat) (g : rng R) :
  ∃ ops g',
    generate_operations R config machines op_ids g = Returns (ops, g')
    ∧ length ops = length op_ids
    ∧ Forall (λ op, eligible_machines op = []) ops.
Proof.
  revert g. induction op_ids as [|k ks IH]; intros g.
  - exists [], g. split; [done|]. split; [done|constructor].
  - cbn [generate_operations]. rewrite Hrigid. cbn [fst snd].
    destruct (randint_in_range R HR 0 (Z.min 0 (Z.of_nat machines)) g)
      as (flexibility & g1 & -> & Hf); [lia|].
    cbn.
    destruct (sample_distinct R HR machines flexibility g1)
      as (eligible & g2 & -> & Hnd & Hlen & Hrange); [lia|].
    cbn. destruct (uniform R _ _ g2) as [processing_time g3].
    destruct (IH g3) as (ops & g4 & -> & Hl & Hops). cbn.
    eexists _, g4. split; [reflexivity|]. split; [cbn; by rewrite Hl|].
    constructor; [|done]. cbn. destruct eligible; [done|]. cbn in Hlen. lia.
Qed.

Lemma generate_jobs_rigid (job_ids : list nat) (g : rng R) :
  1 ≤ (cfg_operations_per_job config).1 ≤ (cfg_operations_per_job config).2 →
  ∃ js g',
    generate_jobs R config machines job_ids g = Returns (js, g')
    ∧ length js = length job_ids
    ∧ Forall (λ jb, operations jb ≠ []
                    ∧ Forall (λ op, eligible_machines op = []) (operations jb)) js.
Proof.
  intros Hops. revert g. induction job_ids as [|j js IH]; intros g.
  - exists [], g. split; [done|]. split; [done|constructor].
  - cbn [generate_jobs].
    destruct (randint_in_range R HR _ _ g (proj2 Hops)) as (n & g1 & -> & Hn). cbn.
    destruct (generate_operations_rigid (seq 0 (Z.to_nat n)) g1)
      as (ops & g2 & -> & Hl & Hempty).
    cbn. destruct (IH g2) as (jobs' & g3 & -> & Hlen & Hjobs). cbn.
    eexists _, g3. split; [reflexivity|]. split; [cbn; by rewrite Hlen|].
    constructor; [|done]. cbn. rewrite length_seq in Hl. split; [|done].
    intros ->. cbn in Hl. lia.
Qed.

End Rigid.

End Generated.

Lemma init_num_machines_positive (power : Z → number → outcome number) (n : Z)
    (exponent : number) (machines : Z) :
  init_num_machines power n exponent = Returns machines → 1 ≤ machines.
Proof.
  unfold init_num_machines. destruct (power n exponent) as [p| |]; try done. cbn.
  destruct (py_int p) as [k| |]; try done. cbn. intros [= <-]. lia.
Qed.

Lemma np_random_seed_returns (sd : Z) :
  0 ≤ sd < 2 ^ 32 → Generator.np_random_seed sd = Returns ().
Proof. intros Hsd. unfold Generator.np_random_seed. by rewrite bool_decide_eq_true_2. Qed.

(** The constructor returns a valid instance under the conditions of X14. *)
Lemma new_instance_valid (R : Random) (power : Z → number → outcome number)
    (config : Config) (sd : Z) (wanted : option Z) (machines : Z) :
  random_ok R →
  0 ≤ sd < 2 ^ 32 →
  1 ≤ default (cfg_num_jobs config) wanted →
  init_num_machines power (default (cfg_num_jobs config) wanted)
    (cfg_machine_scaling_exponent config) = Returns machines →
  (cfg_operations_per_job config).1 ≤ (cfg_operations_per_job config).2 →
  1 ≤ (cfg_flexibility config).1 ≤ (cfg_flexibility config).2 →
  (cfg_flexibility config).1 ≤ machines →
  0 < (default (10, 100) (cfg_operation_duration config)).1
    ≤ (default (10, 100) (cfg_operation_duration config)).2 →
  ∃ instance,
    Generator.new_instance R power config sd wanted = Returns instance
    ∧ valid_instance instance = true
    ∧ seed instance = sd
    ∧ Z.of_nat (num_jobs instance) = default (cfg_num_jobs config) wanted
    ∧ Z.of_nat (num_machines instance) = machines.
Proof.
  intros HR Hsd Hjobs Hpower Hops [Hf1 Hf2] Hfm Hdur. unfold Generator.new_instance.
  set (nj := default (cfg_num_jobs config) wanted) in *.
  rewrite (np_random_seed_returns sd Hsd), Hpower. cbn.
  pose proof (init_num_machines_positive _ _ _ _ Hpower) as Hm.
  destruct (generate_jobs_valid R HR config (Z.to_nat machines)) with
    (job_ids := seq 0 (Z.to_nat nj)) (g := rng_seed R sd)
    as (js & g' & -> & Hlen & Hvalid); try done; [lia|].
  cbn. eexists. split; [reflexivity|]. cbn.
  split; [|split; [done|split; lia]].
  unfold valid_instance. cbn. rewrite length_seq in Hlen.
  rewrite !andb_true_iff, !bool_decide_eq_true.
  split; [split; [lia|done]|]. by apply forallb_intro.
Qed.

(** X14. With a seed NumPy accepts (0 to 2**32 - 1), a number of jobs of at
    least 1, a power for which line 33 gives a number of machines, an
    operations range that is not empty, a flexibility range that starts at 1
    or more and within the number of machines, and durations from a positive
    range, the constructor returns an instance that meets the instance
    invariants, with the seed, the number of jobs and the number of machines
    asked for. *)
Theorem generated_instance_valid (R : Random) (power : Z → number → outcome number)
    (config : Config) (sd : Z) (wanted : option Z) (machines : Z) :
  random_ok R →
  0 ≤ sd < 2 ^ 32 →
  1 ≤ default (cfg_num_jobs config) wanted →
  init_num_machines power (default (cfg_num_jobs config) wanted)
    (cfg_machine_scaling_exponent config) = Returns machines →
  (cfg_operations_per_job config).1 ≤ (cfg_operations_per_job config).2 →
  1 ≤ (cfg_flexibility config).1 ≤ (cfg_flexibility config).2 →
  (cfg_flexibility config).1 ≤ machines →
  0 < (default (10, 100) (cfg_operation_duration config)).1
    ≤ (default (10, 100) (cfg_operation_duration config)).2 →
  ∃ instance,
    Generator.new_instance R power config sd wanted = Returns instance
    ∧ valid_instance instance = true
    ∧ seed instance = sd
    ∧ Z.of_nat (num_jobs instance) = default (cfg_num_jobs config) wanted
    ∧ Z.of_nat (num_machines instance) = machines.
Proof. apply new_instance_valid. Qed.

Lemma generated_instance_valid_witness :
  ∃ instance,
    Generator.new_instance Samples.lowest Samples.power_two Samples.small_config 7 None
      = Returns instance
    ∧ valid_instance instance = true
    ∧ seed instance = 7
    ∧ Z.of_nat (num_jobs instance) = 4
    ∧ Z.of_nat (num_machines instance) = 2.
Proof.
  apply (generated_instance_valid Samples.lowest Samples.power_two Samples.small_config
           7 None 2).
  - exact lowest_ok.
  - lia.
  - vm_compute. discriminate.
  - reflexivity.
  - vm_compute. discriminate.
  - vm_compute. split; discriminate.
  - vm_compute. discriminate.
  - vm_compute. split; [reflexivity|discriminate].
Defined.

Section Shape.
Import Generator.
Context (R : Random) (HR : random_ok R) (config : Config) (machines : nat).

Lemma randint_inv (a b x : Z) (g g' : rng R) :
  randint R a b g = Returns (x, g') → a ≤ x ≤ b.
Proof.
  intros Hr. destruct (Z_le_gt_dec a b) as [Hab|Hab].
  - destruct (randint_in_range R HR a b g Hab) as (x' & g'' & Hr' & Hx).
    rewrite Hr in Hr'. by injection Hr' as -> _.
  - destruct (randint_empty R HR a b g) as (e & He & _); [lia|]. congruence.
Qed.

Lemma sample_inv (n : nat) (k : Z) (l : list Z) (g g' : rng R) :
  sample_range R n k g = Returns (l, g') →
  NoDup l ∧ Z.of_nat (length l) = k ∧ ∀ m, m ∈ l → 0 ≤ m < Z.of_nat n.
Proof.
  intros Hs. destruct (decide (0 ≤ k ≤ Z.of_nat n)) as [Hk|Hk].
  - destruct (sample_distinct R HR n k g Hk) as (l' & g'' & Hs' & Hl).
    rewrite Hs in Hs'. by injection Hs' as -> _.
  - destruct (sample_too_large R HR n k g) as (e & He & _); [lia|]. congruence.
Qed.

Lemma list_to_map_const_lookup (l : list Z) (v m : Z) :
  (list_to_map ((λ x, (x, v)) <$> l) : gmap Z Z) !! m
  = if bool_decide (m ∈ l) then Some v else None.
Proof.
  case_bool_decide as Hm; [by apply list_to_map_const|].
  apply not_elem_of_list_to_map_1. rewrite <- list_fmap_compose.
  intros (x & -> & Hx)%list_elem_of_fmap. done.
Qed.

Lemma generate_operations_shape (op_ids : list nat) (g g' : rng R) (ops : list Operation) :
  (default (10, 100) (cfg_operation_duration config)).1
    ≤ (default (10, 100) (cfg_operation_duration config)).2 →
  generate_operations R config machines op_ids g = Returns (ops, g') →
  Forall2 (operation_as_configured config machines) op_ids ops.
Proof.
  intros Hdur. revert g ops. induction op_ids as [|k ks IH]; intros g ops.
  - cbn. intros [= <- _]. constructor.
  - cbn [generate_operations].
    destruct (randint R _ _ g) as [[flexibility g1]| |] eqn:Hf; try done. cbn.
    destruct (sample_range R machines flexibility g1) as [[eligible g2]| |] eqn:Hs;
      try done.
    cbn. pose proof (uniform_in_range R HR _ _ g2 Hdur) as Hu.
    destruct (uniform R _ _ g2) as [processing_time g3]. cbn in Hu.
    destruct (generate_operations R config machines ks g3) as [[ops' g4]| |] eqn:Hrest;
      try done.
    cbn. intros [= <- <-].
    apply randint_inv in Hf. apply sample_inv in Hs as (Hnd & Hlen & Hrange).
    constructor; [|by eapply IH].
    split; [done|]. split; [done|]. split; [done|]. cbn. split; [lia|].
    exists processing_time. split; [done|]. apply list_to_map_const_lookup.
Qed.

Lemma generate_jobs_shape (job_ids : list nat) (g g' : rng R) (js : list Job) :
  (default (10, 100) (cfg_operation_duration config)).1
    ≤ (default (10, 100) (cfg_operation_duration config)).2 →
  generate_jobs R config machines job_ids g = Returns (js, g') →
  Forall2 (job_as_configured config machines) job_ids js.
Proof.
  intros Hdur. revert g js. induction job_ids as [|j ids IH]; intros g js.
  - cbn. intros [= <- _]. constructor.
  - cbn [generate_jobs].
    destruct (randint R _ _ g) as [[n g1]| |] eqn:Hn; try done. cbn.
    destruct (generate_operations R config machines _ g1) as [[ops g2]| |] eqn:Hops;
      try done.
    cbn. destruct (generate_jobs R config machines ids g2) as [[js' g3]| |] eqn:Hrest;
      try done.
    cbn. intros [= <- <-].
    apply randint_inv in Hn. apply generate_operations_shape in Hops; [|done].
    pose proof (Forall2_length _ _ _ Hops) as Hlen. rewrite length_seq in Hlen.
    constructor; [|by eapply IH].
    split; [done|]. cbn. split; [by exists n|]. by rewrite <- Hlen.
Qed.

End Shape.

(** X15. Whatever instance the constructor returns, it is the one the
    configuration describes: the seed (one NumPy accepts) and the counts
    asked for, one job per job number, each with a number of operations from
    the range, and every operation on distinct machines of the instance, as
    many as the flexibility range (capped by the number of machines) allows,
    with one duration from the duration range on all of them. *)
Theorem generated_instance_as_configured (R : Random)
    (power : Z → number → outcome number)
    (config : Config) (sd : Z) (wanted : option Z) (instance : FSJPInstance) :
  random_ok R →
  (default (10, 100) (cfg_operation_duration config)).1
    ≤ (default (10, 100) (cfg_operation_duration config)).2 →
  Generator.new_instance R power config sd wanted = Returns instance →
  seed instance = sd
  ∧ 0 ≤ sd < 2 ^ 32
  ∧ num_jobs instance = Z.to_nat (default (cfg_num_jobs config) wanted)
  ∧ init_num_machines power (default (cfg_num_jobs config) wanted)
      (cfg_machine_scaling_exponent config)
    = Returns (Z.of_nat (num_machines instance))
  ∧ Forall2 (job_as_configured config (num_machines instance))
      (seq 0 (num_jobs instance)) (jobs instance).
Proof.
  intros HR Hdur. unfold Generator.new_instance, Generator.np_random_seed.
  case_bool_decide as Hsd; [|done]. cbn.
  destruct (init_num_machines power _ _) as [machines| |] eqn:Hpower; try done. cbn.
  pose proof (init_num_machines_positive _ _ _ _ Hpower) as Hm.
  destruct (Generator.generate_jobs R config _ _ _) as [[js g']| |] eqn:Hgen; try done.
  cbn. intros [= <-]. cbn. split; [done|]. split; [done|]. split; [done|].
  split; [by rewrite Z2Nat.id by lia|].
  by eapply generate_jobs_shape.
Qed.

Lemma generated_instance_as_configured_witness :
  seed Samples.generated = 7
  ∧ 0 ≤ 7 < 2 ^ 32
  ∧ num_jobs Samples.generated = Z.to_nat (default (cfg_num_jobs Samples.small_config) None)
  ∧ init_num_machines Samples.power_two
      (default (cfg_num_jobs Samples.small_config) None)
      (cfg_machine_scaling_exponent Samples.small_config)
    = Returns (Z.of_nat (num_machines Samples.generated))
  ∧ Forall2 (job_as_configured Samples.small_config (num_machines Samples.generated))
      (seq 0 (num_jobs Samples.generated)) (jobs Samples.generated).
Proof.
  apply (generated_instance_as_configured Samples.lowest Samples.power_two
           Samples.small_config 7 None Samples.generated).
  - exact lowest_ok.
  - vm_compute. discriminate.
  - vm_compute. reflexivity.
Defined.

(** X16. A flexibility range whose lower bound exceeds its upper bound or the
    number of machines makes the constructor raise [ValueError] at the first
    operation it generates (there is one when at least one job and at least
    one operation per job are asked for), whatever the seed. *)
Theorem flexibility_beyond_machines_raises (R : Random)
    (power : Z → number → outcome number)
    (config : Config) (sd : Z) (wanted : option Z) (machines : Z) :
  random_ok R →
  1 ≤ default (cfg_num_jobs config) wanted →
  1 ≤ (cfg_operations_per_job config).1 ≤ (cfg_operations_per_job config).2 →
  init_num_machines power (default (cfg_num_jobs config) wanted)
    (cfg_machine_scaling_exponent config) = Returns machines →
  Z.min (cfg_flexibility config).2 machines < (cfg_flexibility config).1 →
  ∃ e, Generator.new_instance R power config sd wanted = Raises e
       ∧ exn_class e = ValueError.
Proof.
  intros HR Hjobs Hops Hpower Hflex.
  unfold Generator.new_instance, Generator.np_random_seed.
  case_bool_decide as Hsd; [|by eexists].
  set (nj := default (cfg_num_jobs config) wanted) in *.
  rewrite Hpower. cbn.
  pose proof (init_num_machines_positive _ _ _ _ Hpower) as Hm.
  destruct (Z.to_nat nj) as [|nj'] eqn:Hnj; [lia|].
  cbn [seq Generator.generate_jobs].
  destruct (randint_in_range R HR _ _ (rng_seed R sd) (proj2 Hops)) as (n & g1 & -> & Hn).
  cbn. destruct (Z.to_nat n) as [|n'] eqn:Hn'; [lia|].
  cbn [seq Generator.generate_operations].
  destruct (randint_empty R HR (cfg_flexibility config).1
              (Z.min (cfg_flexibility config).2 (Z.of_nat (Z.to_nat machines))) g1)
    as (e & -> & He); [lia|].
  by exists e.
Qed.

Lemma flexibility_beyond_machines_raises_witness :
  ∃ e, Generator.new_instance Samples.lowest Samples.power_two Samples.greedy_config 7 None
       = Raises e
       ∧ exn_class e = ValueError.
Proof.
  apply (flexibility_beyond_machines_raises Samples.lowest Samples.power_two
           Samples.greedy_config 7 None 2).
  - exact lowest_ok.
  - vm_compute. discriminate.
  - vm_compute. split; discriminate.
  - reflexivity.
  - vm_compute. reflexivity.
Defined.

(** X17. From the configuration to the verdict: under the conditions of X14
    the constructor returns an instance, the heuristic returns a schedule for
    it, and the validator accepts that schedule. *)
Theorem generated_instance_scheduled (R : Random) (power : Z → number → outcome number)
    (config : Config) (sd : Z) (wanted : option Z) (machines : Z) :
  random_ok R →
  0 ≤ sd < 2 ^ 32 →
  1 ≤ default (cfg_num_jobs config) wanted →
  init_num_machines power (default (cfg_num_jobs config) wanted)
    (cfg_machine_scaling_exponent config) = Returns machines →
  (cfg_operations_per_job config).1 ≤ (cfg_operations_per_job config).2 →
  1 ≤ (cfg_flexibility config).1 ≤ (cfg_flexibility config).2 →
  (cfg_flexibility config).1 ≤ machines →
  0 < (default (10, 100) (cfg_operation_duration config)).1
    ≤ (default (10, 100) (cfg_operation_duration config)).2 →
  ∃ instance r,
    Generator.new_instance R power config sd wanted = Returns instance
    ∧ shortest_processing_time (S (total_operations instance)) instance = Returns r
    ∧ validate_solution instance r = Returns (true, None).
Proof.
  intros HR Hsd Hjobs Hpower Hops Hflex Hfm Hdur.
  destruct (new_instance_valid R power config sd wanted machines
              HR Hsd Hjobs Hpower Hops Hflex Hfm Hdur)
    as (instance & Hnew & Hvalid & _).
  destruct (heuristic_validated instance (S (total_operations instance)) Hvalid)
    as (r & m & Hrun & _ & _ & Hv); [lia|].
  by exists instance, r.
Qed.

Lemma generated_instance_scheduled_witness :
  ∃ instance r,
    Generator.new_instance Samples.lowest Samples.power_two Samples.small_config 7 None
      = Returns instance
    ∧ shortest_processing_time (S (total_operations instance)) instance = Returns r
    ∧ validate_solution instance r = Returns (true, None).
Proof.
  apply (generated_instance_scheduled Samples.lowest Samples.power_two
           Samples.small_config 7 None 2).
  - exact lowest_ok.
  - lia.
  - vm_compute. discriminate.
  - reflexivity.
  - vm_compute. discriminate.
  - vm_compute. split; discriminate.
  - vm_compute. discriminate.
  - vm_compute. split; [reflexivity|discriminate].
Defined.

(** X18. With a seed NumPy accepts and a power for which line 33 gives a
    number of machines, a flexibility range of [0, 0] is accepted by the
    constructor: it returns an instance in which every job has operations
    and no operation has an eligible machine, and on that instance the
    heuristic never returns. *)
Theorem rigid_configuration_hangs (R : Random) (power : Z → number → outcome number)
    (config : Config) (sd : Z) (wanted : option Z) (machines : Z) :
  random_ok R →
  0 ≤ sd < 2 ^ 32 →
  1 ≤ default (cfg_num_jobs config) wanted →
  init_num_machines power (default (cfg_num_jobs config) wanted)
    (cfg_machine_scaling_exponent config) = Returns machines →
  1 ≤ (cfg_operations_per_job config).1 ≤ (cfg_operations_per_job config).2 →
  cfg_flexibility config = (0, 0) →
  ∃ instance,
    Generator.new_instance R power config sd wanted = Returns instance
    ∧ jobs instance ≠ []
    ∧ Forall (λ jb, operations jb ≠ []
                    ∧ Forall (λ op, eligible_machines op = []) (operations jb))
        (jobs instance)
    ∧ ∀ fuel r, shortest_processing_time fuel instance ≠ Returns r.
Proof.
  intros HR Hsd Hjobs Hpower Hops Hrigid. unfold Generator.new_instance.
  set (nj := default (cfg_num_jobs config) wanted) in *.
  rewrite (np_random_seed_returns sd Hsd), Hpower. cbn.
  destruct (generate_jobs_rigid R HR config (Z.to_nat machines)
              Hrigid (seq 0 (Z.to_nat nj)) (rng_seed R sd) Hops)
    as (js & g' & -> & Hlen & Hjs).
  cbn. eexists. split; [reflexivity|]. cbn.
  rewrite length_seq in Hlen.
  destruct js as [|jb js]; [cbn in Hlen; lia|].
  split; [done|]. split; [done|]. intros fuel r.
  apply Forall_cons in Hjs as [[Hne Hempty] _].
  destruct (operations jb) as [|op ops] eqn:Hops'; [done|].
  apply Forall_cons in Hempty as [Hop _].
  apply (empty_eligible_never_returns _ 0 0 jb op); cbn; [lia|done| |done].
  by rewrite Hops'.
Qed.

Lemma rigid_configuration_hangs_witness :
  ∃ instance,
    Generator.new_instance Samples.lowest Samples.power_two Samples.rigid_config 7 None
      = Returns instance
    ∧ jobs instance ≠ []
    ∧ Forall (λ jb, operations jb ≠ []
                    ∧ Forall (λ op, eligible_machines op = []) (operations jb))
        (jobs instance)
    ∧ ∀ fuel r, shortest_processing_time fuel instance ≠ Returns r.
Proof.
  apply (rigid_configuration_hangs Samples.lowest Samples.power_two
           Samples.rigid_config 7 None 2).
  - exact lowest_ok.
  - lia.
  - vm_compute. discriminate.
  - reflexivity.
  - vm_compute. split; discriminate.
  - reflexivity.
Defined.

(** ** Two more facts about verdicts and makespans *)

(** X19. A verdict of the validator is either [(True, None)] or
    [(False, reason)] with a reason: it never accepts with a reason and
    never rejects without one. *)
Theorem verdict_has_reason_iff_invalid (instance : FSJPInstance) (solution : Solution)
    (ok : bool) (reason : option string) :
  validate_solution instance solution = Returns (ok, reason) →
  (ok = true ↔ reason = None).
Proof.
  unfold validate_solution.
  destruct (Validate.collect _ ∅) as [keys| |]; try done. cbn.
  destruct (Validate.completeness _ _ _ _) as [msg|total]; [by intros [= <- <-]|].
  case_bool_decide; [by intros [= <- <-]|].
  destruct (Validate.check_precedence _ _) as [[msg|]| |]; try done; cbn.
  { by intros [= <- <-]. }
  destruct (Validate.check_machines _ _) as [[msg|]| |]; try done; cbn.
  - by intros [= <- <-].
  - by intros [= <- <-].
Qed.

Lemma verdict_has_reason_iff_invalid_witness :
  false = true ↔ Some duplicate_operations = None.
Proof.
  apply (verdict_has_reason_iff_invalid one_job
           (solution_of [mk_entry 0 0 0 0 5; mk_entry 7 0 0 5 10])).
  vm_compute. reflexivity.
Defined.

(** On one machine, entries that each start when machine and job are free
    follow one another without a gap. *)
Lemma single_machine_chain (l : list Entry) :
  Forall (λ e, mid e = 0 ∧ 0 ≤ stime e < ctime e) l →
  Dispatch.earliest_starts l →
  0 ≤ Dispatch.last_completion (Dispatch.on_machine 0) l
  ∧ Forall (λ x, ctime x ≤ Dispatch.last_completion (Dispatch.on_machine 0) l) l
  ∧ (∀ e rest, l = e :: rest → stime e = 0)
  ∧ (∀ l1 a b l2, l = l1 ++ a :: b :: l2 → stime b = ctime a)
  ∧ (∀ l' e, l = l' ++ [e] → Dispatch.last_completion (Dispatch.on_machine 0) l = ctime e).
Proof.
  induction l as [|e l IH] using rev_ind; intros Hl Hstarts.
  - split; [done|]. split; [constructor|]. split; [done|]. split.
    + intros l1 a b l2 H. by destruct l1.
    + intros l' e H. by destruct l'.
  - apply Forall_app in Hl as [Hl He]. apply Forall_singleton in He as [Hmid Hpos].
    assert (Hprefix : Dispatch.earliest_starts l).
    { intros l1 x l2 ->. apply (Hstarts l1 x (l2 ++ [e])). by rewrite <- app_assoc. }
    destruct (IH Hl Hprefix) as (Hnn & Hbound & Hfirst & Hchain & Hlast).
    pose proof (Hstarts l e [] eq_refl) as Hstart. rewrite Hmid in Hstart.
    assert (Hjob : Dispatch.last_completion (Dispatch.of_job (jid e)) l
                   ≤ Dispatch.last_completion (Dispatch.on_machine 0) l).
    { destruct (last_completion_cases (Dispatch.of_job (jid e)) l)
        as [->|(x & Hx & ->)]; [done|].
      by apply (proj1 (Forall_forall _ _) Hbound). }
    rewrite Z.max_l in Hstart by done.
    assert (Hnew : Dispatch.last_completion (Dispatch.on_machine 0) (l ++ [e]) = ctime e).
    { rewrite last_completion_snoc. unfold Dispatch.on_machine.
      by rewrite bool_decide_eq_true_2. }
    rewrite Hnew. split; [lia|]. split; [|split; [|split]].
    + apply Forall_app. split; [|apply Forall_singleton; lia].
      eapply Forall_impl; [exact Hbound|]. cbn. intros x Hx. lia.
    + intros x rest Hsplit. destruct l as [|y l'].
      * cbn in Hsplit. injection Hsplit as <- _. by rewrite Hstart.
      * cbn in Hsplit. injection Hsplit as <- _. by eapply Hfirst.
    + intros l1 a b l2 Hsplit.
      replace (l1 ++ a :: b :: l2) with ((l1 ++ [a]) ++ b :: l2) in Hsplit
        by (by rewrite <- app_assoc).
      apply snoc_split in Hsplit as [(-> & Hl1 & ->)|(l2' & -> & Hsplit)].
      * rewrite Hstart. by apply (Hlast l1).
      * apply (Hchain l1 a b l2'). by rewrite Hsplit, <- app_assoc.
    + intros l' x Hsplit. by apply app_inj_tail in Hsplit as [_ ->].
Qed.

(** X20. On a single machine the heuristic leaves no idle time: the first
    entry of the schedule starts at 0, every other entry starts exactly when
    the entry before it completes, and the makespan is the completion time
    of the last entry. *)
Theorem single_machine_no_idle_time (instance : FSJPInstance) (fuel : nat) :
  valid_instance instance = true →
  num_machines instance = 1%nat →
  (total_operations instance < fuel)%nat →
  ∃ r sch m,
    shortest_processing_time fuel instance = Returns r
    ∧ schedule r = Some sch
    ∧ makespan r = Finite m
    ∧ (∀ e rest, sch = e :: rest → stime e = 0)
    ∧ (∀ l1 a b l2, sch = l1 ++ a :: b :: l2 → stime b = ctime a)
    ∧ (∀ l e, sch = l ++ [e] → m = ctime e).
Proof.
  intros Hvalid Hone Hfuel.
  destruct (spt_returns_times instance Hvalid fuel Hfuel)
    as (st & m & Hrun & Hmax & Hwf & Hinv & Htimes & _).
  assert (Hl : Forall (λ e, mid e = 0 ∧ 0 ≤ stime e < ctime e) (SPT.sched st)).
  { eapply Forall_impl; [exact (Dispatch.ti_entries _ _ Htimes)|]. intros e He.
    split; [|by eapply dispatched_positive].
    destruct He as (j & k & m' & jb & op & d & s & -> & Hjb & Hop & Hin & _).
    destruct (valid_instance_op _ _ _ _ _ Hvalid Hjb Hop) as (_ & _ & Hms).
    destruct (Hms _ Hin) as [Hrange _]. rewrite Hone in Hrange.
    unfold mid. cbn. lia. }
  destruct (single_machine_chain _ Hl (Dispatch.ti_starts _ _ Htimes))
    as (Hnn & Hbound & Hfirst & Hchain & Hlast).
  eexists _, _, m. split; [exact Hrun|]. split; [done|]. split; [done|].
  split; [done|]. split; [done|]. intros l e Hsplit.
  apply py_max_spec in Hmax as [Hin Hall].
  apply list_elem_of_lookup in Hin as [j Hj].
  pose proof (Dispatch.ti_jobs _ _ Htimes j m Hj) as Hm.
  pose proof (Hlast l e Hsplit) as Hlc.
  assert (He : e ∈ SPT.sched st) by (rewrite Hsplit; apply elem_of_app; right; left).
  assert (Hle : ctime e ≤ m).
  { pose proof (proj1 (Forall_forall _ _) (Run.inv_entries _ Hinv) e He)
      as (j0 & k0 & m0 & n0 & s0 & c0 & r0 & a0 & -> & _ & _ & Hr0 & Hc0 & _).
    pose proof (proj1 (Forall_forall _ _) Hall r0 (list_elem_of_lookup_2 _ _ _ Hr0)) as Hr.
    cbn in Hr. unfold ctime. cbn. lia. }
  pose proof (proj1 (Forall_forall _ _) Hl e He) as [_ Hpos].
  destruct (last_completion_cases (Dispatch.of_job (Z.of_nat j)) (SPT.sched st))
    as [H0|(x & Hx & Hlastx)].
  - lia.
  - pose proof (proj1 (Forall_forall _ _) Hbound x Hx) as Hxb. cbn in Hxb. lia.
Qed.

Lemma single_machine_no_idle_time_witness :
  ∃ r sch m,
    shortest_processing_time 3 two_jobs = Returns r
    ∧ schedule r = Some sch
    ∧ makespan r = Finite m
    ∧ (∀ e rest, sch = e :: rest → stime e = 0)
    ∧ (∀ l1 a b l2, sch = l1 ++ a :: b :: l2 → stime b = ctime a)
    ∧ (∀ l e, sch = l ++ [e] → m = ctime e).
Proof.
  apply (single_machine_no_idle_time two_jobs 3).
  - reflexivity.
  - reflexivity.
  - vm_compute. lia.
Defined.
